(** * Branch Switcher: a shallow embedding of [main.go]

    The development follows the layout of the Go program:

    - the external command runner ([os/exec]) as a state-passing
      interface over an abstract world, instrumented with the trace of
      the commands that were run;
    - [switchBranch], the per-repository command sequence;
    - the Elm-style [model] with its [Update] function and the batch
      closure built by [processProjects];
    - [findProjects] and the start of [main] over an abstract file system.

    The definitions come first, the theorems about them afterwards. *)

From Stdlib Require Import ZArith DecimalString Sorted Permutation.
From Stdlib Require OrderedTypeEx.
From stdpp Require Import base option list strings gmap sorting.

Set Default Proof Using "Type".

(** ** Go values shared by all parts *)

(** A Go [error] is represented by the text of its [Error()] method;
    [None] is the [nil] error. *)
Definition error := option string.

(** What one external process did: it either ran and exited with a
    status, having written [stderr_text] on its standard error, or it
    could not be started at all (for instance when the [git] executable
    is missing), in which case [os/exec] reports [start_text]. *)
Inductive RunResult :=
  | Exited (status : N) (stderr_text : string)
  | NotStarted (start_text : string).

(** Decimal rendering of an exit status, as [strconv.Itoa] prints it. *)
Definition itoa (n : N) : string := NilEmpty.string_of_uint (N.to_uint n).

(** The error returned by the [Run] method of [exec.Cmd].  The commands of this
    program are built with [exec.Command] and never assign [Stdout] or
    [Stderr], so the child's standard error is connected to the null
    device: the text written there reaches neither the [Cmd] nor the
    returned [exec.ExitError], whose [Error()] is the process state,
    [exit status N]. *)
Definition run_error (r : RunResult) : error :=
  match r with
  | Exited 0 _ => None
  | Exited n _ => Some ("exit status " +:+ itoa n)
  | NotStarted t => Some t
  end.

(** [fmt.Errorf("<what>: %v", err)]. *)
Definition Errorf (what : string) (err : string) : string :=
  what +:+ ": " +:+ err.

(** One entry of the command trace: the argument vector and what the
    process did. *)
Definition Event : Type := list string * RunResult.

(** [exec.Command("git", "-C", projectPath, ...)]. *)
Definition git (projectPath : string) (args : list string) : list string :=
  "git" :: "-C" :: projectPath :: args.

Record project := { name : string; path : string }.

#[global] Instance project_eq_dec : EqDecision project.
Proof. solve_decision. Defined.

(** ** The Elm-style model, its messages and commands *)

Inductive msgType :=
  | msgToggleProject
  | msgToggleAll
  | msgConfirm
  | msgSetMode
  | msgSetBranchName
  | msgProcessComplete
  | msgError.

Inductive mode :=
  | modeSelectAction
  | modeSelectProjects
  | modeEnterBranch
  | modeProcessing.

#[global] Instance mode_eq_dec : EqDecision mode.
Proof. solve_decision. Defined.

(** The [msg] struct.  Fields the program leaves at their zero value
    carry that zero value here. *)
Record msg := {
  Type_ : msgType;
  ProjectID : Z;
  Mode : mode;
  Branch : string;
  Error : error
}.

Definition mkMsg (t : msgType) (e : error) : msg :=
  {| Type_ := t; ProjectID := 0; Mode := modeSelectAction;
     Branch := ""; Error := e |}.

(** The [model] struct.  The field holding the mode is [cur_mode], since
    [mode] names the type.  [selected] is Go's [map[int]bool]: a key can
    be present with value [false], and [len] counts present keys. *)
Record model := {
  projects : list project;
  selected : gmap Z bool;
  cursor : Z;
  cur_mode : mode;
  action : Z;  (* 0: switch to main, 1: create branch *)
  branchName : string;
  processing : bool;
  error_text : string
}.

Definition with_cursor (c : Z) (m : model) : model :=
  {| projects := projects m; selected := selected m; cursor := c;
     cur_mode := cur_mode m; action := action m;
     branchName := branchName m; processing := processing m;
     error_text := error_text m |}.

Definition with_selected (s : gmap Z bool) (m : model) : model :=
  {| projects := projects m; selected := s; cursor := cursor m;
     cur_mode := cur_mode m; action := action m;
     branchName := branchName m; processing := processing m;
     error_text := error_text m |}.

Definition with_mode (md : mode) (m : model) : model :=
  {| projects := projects m; selected := selected m; cursor := cursor m;
     cur_mode := md; action := action m;
     branchName := branchName m; processing := processing m;
     error_text := error_text m |}.

Definition with_action (a : Z) (m : model) : model :=
  {| projects := projects m; selected := selected m; cursor := cursor m;
     cur_mode := cur_mode m; action := a;
     branchName := branchName m; processing := processing m;
     error_text := error_text m |}.

Definition with_branchName (b : string) (m : model) : model :=
  {| projects := projects m; selected := selected m; cursor := cursor m;
     cur_mode := cur_mode m; action := action m;
     branchName := b; processing := processing m;
     error_text := error_text m |}.

Definition with_error (e : string) (m : model) : model :=
  {| projects := projects m; selected := selected m; cursor := cursor m;
     cur_mode := cur_mode m; action := action m;
     branchName := branchName m; processing := processing m;
     error_text := e |}.

(** What [Update] receives: a key press (identified by the text of
    [msg.String()]), one of the program's own [msg] values, or any other
    message of the framework. *)
Inductive teaMsg :=
  | KeyMsg (key : string)
  | AppMsg (a : msg)
  | FrameworkMsg.

(** The commands [Update] can return: [tea.Quit], or the [tea.Tick]
    built by [processProjects], whose callback closes over the receiver
    [m] and the branch name.  The receiver is a copy of the model, but
    its [selected] field is the very map object of the model [Update]
    returns, and the space key writes into that object in place: what
    the callback ranges over when the tick fires, 100 ms later, is the
    contents the map has by then, which need not be the contents
    recorded in the [m] of the command.  The facts about the callback
    are therefore stated for an arbitrary model, to be read at the
    selection the map holds when the loop runs. *)
Inductive Cmd :=
  | Quit
  | Tick (millis : Z) (m : model) (branch : string).

(** [len] of a slice and of a map, as Go [int]s. *)
Definition len {A} (l : list A) : Z := Z.of_nat (length l).
Definition maplen (s : gmap Z bool) : Z := Z.of_nat (size s).

(** [for i := range m.projects { m.selected[i] = true }] *)
Definition mark_all (ps : list project) (s : gmap Z bool) : gmap Z bool :=
  foldl (fun acc i => <[i := true]> acc) s (seqZ 0 (len ps)).

(** [m.selected[i]] read as an expression: a missing key reads [false]. *)
Definition sel_get (s : gmap Z bool) (i : Z) : bool := default false (s !! i).

Definition processProjects (m : model) (branch : string) : Cmd :=
  Tick 100 m branch.

Definition updateActionSelect (m : model) (key : string) : model * option Cmd :=
  if decide (key = "q" \/ key = "ctrl+c") then (m, Some Quit)
  else if decide (key = "up" \/ key = "k") then
    ((if decide (cursor m > 0)%Z then with_cursor (cursor m - 1) m else m), None)
  else if decide (key = "down" \/ key = "j") then
    ((if decide (cursor m < 1)%Z then with_cursor (cursor m + 1) m else m), None)
  else if decide (key = "enter") then
    (* Auto-select all projects *)
    (with_selected (mark_all (projects m) (selected m))
       (with_cursor 0 (with_mode modeSelectProjects
          (with_action (cursor m) m))), None)
  else (m, None).

Definition updateProjectSelect (m : model) (key : string) : model * option Cmd :=
  if decide (key = "q" \/ key = "ctrl+c") then (m, Some Quit)
  else if decide (key = "esc") then
    (with_selected ∅ (with_cursor 0 (with_mode modeSelectAction m)), None)
  else if decide (key = "up" \/ key = "k") then
    ((if decide (cursor m > 0)%Z then with_cursor (cursor m - 1) m else m), None)
  else if decide (key = "down" \/ key = "j") then
    ((if decide (cursor m < len (projects m) - 1)%Z
      then with_cursor (cursor m + 1) m else m), None)
  else if decide (key = " ") then
    (with_selected
       (<[cursor m := negb (sel_get (selected m) (cursor m))]> (selected m)) m,
     None)
  else if decide (key = "a") then
    let allSelected := bool_decide (maplen (selected m) = len (projects m)) in
    (with_selected
       (if negb allSelected then mark_all (projects m) ∅ else ∅) m, None)
  else if decide (key = "enter") then
    if decide (maplen (selected m) = 0%Z) then
      (with_error "No projects selected" m, None)
    else if decide (action m = 1%Z) then (* Create branch *)
      (with_branchName "" (with_mode modeEnterBranch m), None)
    else (* Switch to main *)
      (m, Some (processProjects m ""))
  else (m, None).

Definition updateBranchInput (m : model) (key : string) : model * option Cmd :=
  if decide (key = "q" \/ key = "ctrl+c") then (m, Some Quit)
  else if decide (key = "esc") then (with_mode modeSelectProjects m, None)
  else if decide (key = "enter") then
    if decide (branchName m = "") then
      (with_error "Branch name cannot be empty" m, None)
    else (m, Some (processProjects m (branchName m)))
  else if decide (key = "backspace") then
    ((if decide (0 < String.length (branchName m)) then
        with_branchName
          (String.substring 0 (String.length (branchName m) - 1) (branchName m)) m
      else m), None)
  else
    ((if decide (String.length key = 1) then
        with_branchName (branchName m +:+ key) m
      else m), None).

Definition Update (m : model) (message : teaMsg) : model * option Cmd :=
  match message with
  | KeyMsg key =>
      match cur_mode m with
      | modeSelectAction => updateActionSelect m key
      | modeSelectProjects => updateProjectSelect m key
      | modeEnterBranch => updateBranchInput m key
      | modeProcessing => (m, None)
      end
  | _ => (m, None)
  end.

(** The model built by [main] for a non-empty project list. *)
Definition initialModel (ps : list project) : model :=
  {| projects := ps; selected := ∅; cursor := 0;
     cur_mode := modeSelectAction; action := 0;
     branchName := ""; processing := false; error_text := "" |}.

(** Every key of the selection map is the index of a project, and
    outside the action screen so is the cursor. *)
Definition in_range (m : model) : Prop :=
  (forall k, is_Some (selected m !! k) -> (0 <= k < len (projects m))%Z) /\
  (cur_mode m <> modeSelectAction -> (0 <= cursor m < len (projects m))%Z).

(** Feeding a sequence of key presses through [Update], dropping the
    commands. *)
Definition press (m : model) (keys : list string) : model :=
  foldl (fun acc k => (Update acc (KeyMsg k)).1) m keys.

(** A Go function either returns or panics. *)
Inductive Result (A : Type) :=
  | Returned (a : A)
  | Panicked.
Arguments Returned {A} a.
Arguments Panicked {A}.

(** [s[i]] on a slice: indexing outside [0, len s) panics, here [None]. *)
Definition index {A} (l : list A) (i : Z) : option A :=
  if decide (0 <= i)%Z then l !! Z.to_nat i else None.

(** The order in which [for id, selected := range m.selected] visits
    the entries of the map.  Go leaves it unspecified: any arrangement
    of the entries, each visited once, is a legal iteration order. *)
Definition iteration_order (s : gmap Z bool) (order : list (Z * bool)) : Prop :=
  order ≡ₚ map_to_list s.

(** The stages at which the command sequence can abort, the text
    [switchBranch] puts in front of the error for each, and the fixed
    sequence of commands with the way a failure of each is treated. *)
Inductive Stage := Fetch | Checkout | PullStage | BranchCreate.

Inductive Policy :=
  | BestEffort
  | Aborting (s : Stage).

Definition stage_what (s : Stage) : string :=
  match s with
  | Fetch => "failed to fetch"
  | Checkout => "failed to checkout main"
  | PullStage => "failed to pull"
  | BranchCreate => "failed to create branch"
  end.

Definition Step : Type := list string * Policy.

(** The sequence as the specification words it: stash (best-effort),
    fetch origin, delete local main (best-effort), checkout --track
    origin/main, pull origin main, and checkout -b <name> only when a
    branch name is given. *)
Definition plan (projectPath branchName : string) : list Step :=
  [ (git projectPath ["stash"], BestEffort);
    (git projectPath ["fetch"; "origin"], Aborting Fetch);
    (git projectPath ["branch"; "-D"; "main"], BestEffort);
    (git projectPath ["checkout"; "--track"; "origin/main"], Aborting Checkout);
    (git projectPath ["pull"; "origin"; "main"], Aborting PullStage) ]
  ++ (if decide (branchName = "") then []
      else [ (git projectPath ["checkout"; "-b"; branchName], Aborting BranchCreate) ]).

(** Step [i] of [steps] is an aborting step of stage [s] that was run as
    the [i]-th event of [evs] and failed with error text [e]. *)
Definition failed_at (steps : list Step) (evs : list Event)
    (i : nat) (s : Stage) (e : string) : Prop :=
  exists argv r,
    steps !! i = Some (argv, Aborting s) /\ evs !! i = Some (argv, r) /\
    run_error r = Some e.

(** How a run of [run_steps] went, seen from the events [evs] it
    logged: it came to the end of the steps without a failing aborting
    step, or it stopped at the first one. *)
Definition ended (steps : list Step) (evs : list Event) (r : error) : Prop :=
  (r = None /\ evs.*1 = steps.*1 /\
   forall i s err, ~ failed_at steps evs i s err)
  \/
  (exists i s err,
     r = Some (Errorf (stage_what s) err) /\
     length evs = S i /\ failed_at steps evs i s err /\
     forall j s' err', failed_at steps evs j s' err' -> j = i).




(** ** The command runner and [switchBranch] *)

Section Executor.
Context {W : Type}.
(** The outside world (the repositories on disk, the remote, the
    network) and the effect of running one command in it. *)
Variable exec : list string -> W -> RunResult * W.

(** An event that [exec] can produce. *)
Definition produced (ev : Event) : Prop :=
  exists w, (exec ev.1 w).1 = ev.2.

Record Env := { world : W; trace : list Event }.

(** State-passing computations over [Env]. *)
Definition M (A : Type) : Type := Env -> A * Env.

Definition ret {A} (a : A) : M A := fun e => (a, e).

Definition bind {A B} (c : M A) (k : A -> M B) : M B :=
  fun e => let '(a, e') := c e in k a e'.

Notation "'do' x <- c ; k" := (bind c (fun x => k))
  (at level 10, x name, c at level 100, k at level 200).
Notation "'run' c ; k" := (bind c (fun _ => k))
  (at level 10, c at level 100, k at level 200).

(** [exec.Command(argv...).Run()]: runs the process to completion and
    logs it. *)
Definition Run (argv : list string) : M error :=
  fun e =>
    let '(r, w') := exec argv (world e) in
    (run_error r, {| world := w'; trace := trace e ++ [(argv, r)] |}).

Definition switchBranch (projectPath branchName : string) : M error :=
  (* Stash changes *)
  run Run (git projectPath ["stash"]);
  (* Fetch and switch to main *)
  do err <- Run (git projectPath ["fetch"; "origin"]);
  match err with
  | Some e => ret (Some (Errorf "failed to fetch" e))
  | None =>
  run Run (git projectPath ["branch"; "-D"; "main"]);
  do err <- Run (git projectPath ["checkout"; "--track"; "origin/main"]);
  match err with
  | Some e => ret (Some (Errorf "failed to checkout main" e))
  | None =>
  do err <- Run (git projectPath ["pull"; "origin"; "main"]);
  match err with
  | Some e => ret (Some (Errorf "failed to pull" e))
  | None =>
  (* Create new branch if specified *)
  if decide (branchName <> "") then
    do err <- Run (git projectPath ["checkout"; "-b"; branchName]);
    match err with
    | Some e => ret (Some (Errorf "failed to create branch" e))
    | None => ret None
    end
  else ret None
  end end end.

(** The loop of the [tea.Tick] callback built by [processProjects],
    over the entries of [m.selected] in the order the [range] clause
    delivers them. *)
Fixpoint range_selected (ps : list project) (branch : string)
    (order : list (Z * bool)) : M (Result msg) :=
  match order with
  | [] => ret (Returned (mkMsg msgProcessComplete None))
  | (id, sel) :: rest =>
      if negb sel then range_selected ps branch rest (* continue *)
      else
        match index ps id with
        | None => ret Panicked
        | Some project =>
            do err <- switchBranch (path project) branch;
            match err with
            | Some e => ret (Returned (mkMsg msgError (Some e)))
            | None => range_selected ps branch rest
            end
        end
  end.

(** The callback of the [tea.Tick] that [processProjects m branch]
    returns: the loop above on the projects of the captured receiver. *)
Definition processProjects_callback (m : model) (branch : string)
    (order : list (Z * bool)) : M (Result msg) :=
  range_selected (projects m) branch order.

(** The specification's reading of one repository's sequence: run the
    steps in order, ignore the failure of a best-effort step, stop at
    the first failing aborting step with its stage. *)
Fixpoint run_steps (steps : list Step) : M error :=
  match steps with
  | [] => ret None
  | (argv, pol) :: rest =>
      do err <- Run argv;
      match pol, err with
      | Aborting s, Some e => ret (Some (Errorf (stage_what s) e))
      | _, _ => run_steps rest
      end
  end.

End Executor.

Arguments Env : clear implicits.
Arguments M : clear implicits.

(** The events a computation added to the trace. *)
Definition new_events {W} (e e' : Env W) : list Event :=
  drop (length (trace e)) (trace e').

(** ** Repository discovery and the start of [main] *)

Record DirEntry := { Name : string; IsDir : bool }.

#[global] Instance DirEntry_eq_dec : EqDecision DirEntry.
Proof. solve_decision. Defined.

Record FileInfo := { fi_IsDir : bool }.

(** The file system as [findProjects] sees it.  Each call returns what
    the Go function returns: [os.Getwd] and [os.ReadDir] a value
    together with an error, [os.Stat] a [FileInfo] or an error. *)
Record FS := {
  Getwd : string * error;
  ReadDir : string -> list DirEntry * error;
  Stat : string -> FileInfo + string
}.

(** How [main] starts: it prints a line and exits, or runs the program
    on an initial model. *)
Inductive Startup :=
  | ExitWith (status : Z) (line : string)
  | RunProgram (m : model).

Section Locator.
(** [filepath.Dir] and [filepath.Join], functions of Go's library. *)
Variable Dir : string -> string.
Variable Join : list string -> string.

(** [sort.Slice(projects, less)] is the library's sort; an insertion
    sort stands for it.  Two projects of equal name found by
    [findProjects] are equal, so every sort returns the same slice
    (see [sorted_by_name_unique] and [findProjects_any_sort]). *)
Fixpoint insert_by (less : project -> project -> bool) (x : project)
    (l : list project) : list project :=
  match l with
  | [] => [x]
  | y :: l' => if less x y then x :: y :: l' else y :: insert_by less x l'
  end.

Definition sort_Slice (less : project -> project -> bool)
    (l : list project) : list project :=
  foldr (insert_by less) [] l.

Definition name_less (a b : project) : bool := String.ltb (name a) (name b).

(** The test of the loop body: [dir.IsDir()] and then [os.Stat] of
    [<parent>/<name>/.git] without error and reporting a directory. *)
Definition is_repository (fs : FS) (parentDir : string) (dir : DirEntry) : bool :=
  if IsDir dir then
    let gitPath := Join [parentDir; Name dir; ".git"] in
    match Stat fs gitPath with
    | inl stat => fi_IsDir stat
    | inr _ => false
    end
  else false.

Definition parentDir_of (fs : FS) : string := Dir (Getwd fs).1.

Definition descriptor (parentDir : string) (dir : DirEntry) : project :=
  {| name := Name dir; path := Join [parentDir; Name dir] |}.

Definition findProjects (fs : FS) : list project :=
  (* Get parent directory *)
  let cwd := (Getwd fs).1 in
  let parentDir := Dir cwd in
  (* Find directories with .git folders (Git repositories) *)
  let dirs := (ReadDir fs parentDir).1 in
  let projects :=
    foldl (fun projects dir =>
             if is_repository fs parentDir dir
             then projects ++ [descriptor parentDir dir]
             else projects) [] dirs in
  sort_Slice name_less projects.

Definition main (fs : FS) : Startup :=
  let projects := findProjects fs in
  if decide (len projects = 0%Z) then
    ExitWith 1 "No Git repositories found in parent directory"
  else RunProgram (initialModel projects).

End Locator.

(** Ascending order of names under byte-wise comparison of strings. *)
Definition name_le (a b : project) : Prop := String.leb (name a) (name b) = true.


(** Stand-ins for [filepath.Join] and [filepath.Dir] on the clean
    absolute paths of the fixtures: joining with a slash, and cutting
    off the last slash and what follows it. *)
Fixpoint slash_join (l : list string) : string :=
  match l with
  | [] => ""
  | [x] => x
  | x :: rest => x +:+ "/" +:+ slash_join rest
  end.

Fixpoint cut_last (s : string) : option string :=
  match s with
  | EmptyString => None
  | String c s' =>
      match cut_last s' with
      | Some d => Some (String c d)
      | None => if Ascii.eqb c (Ascii.ascii_of_nat 47) then Some "" else None
      end
  end.

Definition slash_dir (s : string) : string :=
  match cut_last s with
  | Some EmptyString => "/"
  | Some d => d
  | None => "."
  end.

Definition no_such_file : FileInfo + string := inr "no such file or directory".



(** The parent holds two repositories, a directory without [.git], a
    plain file, and a directory whose [.git] is a file. *)
Definition fs_mixed : FS :=
  {| Getwd := ("/w/tool", None);
     ReadDir := fun d =>
       if decide (d = "/w")
       then ([ {| Name := "zeta"; IsDir := true |};
               {| Name := "README"; IsDir := false |};
               {| Name := "beta"; IsDir := true |};
               {| Name := "alpha"; IsDir := true |};
               {| Name := "gamma"; IsDir := true |} ], None)
       else ([], Some "no such file or directory");
     Stat := fun p =>
       if decide (p = "/w/zeta/.git" \/ p = "/w/alpha/.git")
       then inl {| fi_IsDir := true |}
       else if decide (p = "/w/gamma/.git") then inl {| fi_IsDir := false |}
       else no_such_file |}.

(** ** Vocabulary for the batch *)

(** The keys of the entries with value [true], in iteration order: the
    repositories the loop works on, in the order it reaches them. *)
Definition selected_ids (order : list (Z * bool)) : list Z :=
  (filter (fun x => x.2 = true) order).*1.

(** The commands of the full plan for the repository at index [id]. *)
Definition cmds_of (ps : list project) (branch : string) (id : Z)
    : list (list string) :=
  match index ps id with
  | Some p => (plan (path p) branch).*1
  | None => []
  end.

(** [argv] is a git command directed at the repository at [p]. *)
Definition on_repo (p : string) (argv : list string) : Prop :=
  exists args, argv = git p args.

(** In every state of the world, each aborting step of the plan for
    [p] succeeds. *)
Definition always_ok {W} (exec : list string -> W -> RunResult * W)
    (p branch : string) : Prop :=
  forall w argv s,
    (argv, Aborting s) ∈ plan p branch -> run_error (exec argv w).1 = None.

(** In every state of the world, fetching in [p] fails. *)
Definition fetch_fails {W} (exec : list string -> W -> RunResult * W)
    (p : string) : Prop :=
  forall w, run_error (exec (git p ["fetch"; "origin"]) w).1 <> None.


(** ** Fixtures: a scripted runner and two repositories

    The scripted runner answers a command from a table and with a clean
    exit when the table has no entry for it; its world carries no
    state. *)

Definition Script : Type := list (list string * RunResult).

Fixpoint answer (tbl : Script) (argv : list string) : RunResult :=
  match tbl with
  | [] => Exited 0 ""
  | (a, r) :: tbl' => if decide (a = argv) then r else answer tbl' argv
  end.

Definition scripted (tbl : Script) (argv : list string) (w : unit)
    : RunResult * unit :=
  (answer tbl argv, w).

Definition start : Env unit := {| world := tt; trace := [] |}.

Definition repo_a : project := {| name := "a"; path := "/w/a" |}.
Definition repo_b : project := {| name := "b"; path := "/w/b" |}.

(** The repository-selection screen for [repo_a] and [repo_b], both
    selected, with the plain switch-to-main action: the model reached
    from the initial one by pressing enter. *)
Definition two_repos : model :=
  {| projects := [repo_a; repo_b];
     selected := <[1%Z := true]> (<[0%Z := true]> ∅);
     cursor := 0; cur_mode := modeSelectProjects; action := 0;
     branchName := ""; processing := false; error_text := "" |}.

(** One repository, ticked off again after the automatic selection:
    the selection map holds the entry [0 -> false]. *)
Definition one_unticked : model :=
  press (initialModel [repo_a]) ["enter"; " "].

(** The same with the create-branch action chosen first. *)
Definition one_unticked_branch : model :=
  press (initialModel [repo_a]) ["down"; "enter"; " "].

(** Two repositories, the first ticked off again: the selection map
    holds [0 -> false] and [1 -> true]. *)
Definition first_unticked : model :=
  press (initialModel [repo_a; repo_b]) ["enter"; " "].

(** The two iteration orders of that selection. *)
Definition a_then_b : list (Z * bool) := [(0%Z, true); (1%Z, true)].
Definition b_then_a : list (Z * bool) := [(1%Z, true); (0%Z, true)].

(** Fetching in [repo_a] fails; everything else succeeds. *)
Definition fetch_a_fails : Script :=
  [ (git "/w/a" ["fetch"; "origin"], Exited 128 "fatal: no such remote") ].

(** Fetching in [repo_a] and pulling in [repo_b] fail. *)
Definition fetch_a_pull_b_fail : Script :=
  [ (git "/w/a" ["fetch"; "origin"], Exited 128 "fatal: no such remote");
    (git "/w/b" ["pull"; "origin"; "main"], Exited 1 "CONFLICT (content)") ].

(** ** The trace as a record of what [exec] did *)

(** [chained exec w evs w']: the events [evs] are what running their
    commands one after the other really gave, starting in the world [w]:
    each result is the one [exec] returns for that command in the world
    the previous command left, and [w'] is the world after the last. *)
Fixpoint chained {W : Type} (exec : list string -> W -> RunResult * W)
    (w : W) (evs : list Event) (w' : W) : Prop :=
  match evs with
  | [] => w' = w
  | (argv, r) :: rest =>
      (exec argv w).1 = r /\ chained exec (exec argv w).2 rest w'
  end.

(** The repository at index [id] ran its whole plan in [seg] and none of
    its aborting steps failed. *)
Definition ran_clean (ps : list project) (branch : string)
    (id : Z) (seg : list Event) : Prop :=
  exists p, index ps id = Some p /\
    seg.*1 = (plan (path p) branch).*1 /\
    forall i s err, ~ failed_at (plan (path p) branch) seg i s err.


(** ** Vocabulary for the key-press properties *)

(** The bytes of a string, and the byte of the key [q]. *)
Definition bytes (s : string) : list Ascii.ascii := String.list_ascii_of_string s.

Definition byte_q : Ascii.ascii := Ascii.ascii_of_nat 113.

(** The text obtained by typing the keys one after the other. *)
Definition typed (keys : list string) : string := foldr String.append "" keys.

(** A key that the branch-name screen takes as a character of the name:
    its text is one byte long and it is not the quit key. *)
Definition name_key (k : string) : Prop := String.length k = 1 /\ k <> "q".

(** The branch-name screen reached from the initial model of [repo_a]
    by choosing the create-branch action and confirming the selection. *)
Definition naming_screen : model :=
  press (initialModel [repo_a]) ["down"; "enter"; "enter"].

(** The selection screen of [repo_a] and [repo_b] for the create-branch
    action. *)
Definition two_repos_branch : model :=
  press (initialModel [repo_a; repo_b]) ["down"; "enter"].

(** ** Vocabulary for the further properties of batch and discovery *)

(** Strictly ascending order of names under byte-wise comparison. *)
Definition name_lt (a b : project) : Prop := String.ltb (name a) (name b) = true.

(** The same file system with the parent directory listing its entries
    as [entries]. *)
Definition relisted (fs : FS) (entries : list DirEntry) : FS :=
  {| Getwd := Getwd fs;
     ReadDir := fun d => (entries, (ReadDir fs d).2);
     Stat := Stat fs |}.

(** The runner in which every command succeeds. *)
Definition all_succeed : Script := [].

(** ** Facts about the command sequence *)

Section ExecutorFacts.
Context {W : Type}.
Variable exec : list string -> W -> RunResult * W.

Lemma failed_at_nil evs i s err : ~ failed_at [] evs i s err.
Proof. intros (argv & r & Hs & _). rewrite lookup_nil in Hs. discriminate. Qed.

Lemma failed_at_cons st ev steps evs i s err :
  failed_at (st :: steps) (ev :: evs) (S i) s err <-> failed_at steps evs i s err.
Proof. unfold failed_at. simpl. reflexivity. Qed.

Lemma failed_at_head_ok argv pol r steps evs s err :
  (pol = BestEffort \/ run_error r = None) ->
  ~ failed_at ((argv, pol) :: steps) ((argv, r) :: evs) 0 s err.
Proof.
  intros Hok (a' & r' & Hs & Hev & Herr). simpl in Hs, Hev.
  destruct Hok; congruence.
Qed.

Lemma ended_skip argv pol r steps evs res :
  (pol = BestEffort \/ run_error r = None) ->
  ended steps evs res ->
  ended ((argv, pol) :: steps) ((argv, r) :: evs) res.
Proof.
  intros Hok [(Hr & Hcmds & Hno) | (i & s & err & Hr & Hlen & Hf & Huniq)].
  - left. split; [assumption|]. split; [simpl; now f_equal|].
    intros [|i] s err.
    + now apply failed_at_head_ok.
    + rewrite failed_at_cons. apply Hno.
  - right. exists (S i), s, err.
    split; [assumption|]. split; [simpl; now f_equal|].
    split; [now rewrite failed_at_cons|].
    intros [|j] s' err'.
    + intros Hj. now apply failed_at_head_ok in Hj.
    + rewrite failed_at_cons. intros Hj. f_equal. eauto.
Qed.

Lemma ended_stop argv s r err steps :
  run_error r = Some err ->
  ended ((argv, Aborting s) :: steps) [(argv, r)]
        (Some (Errorf (stage_what s) err)).
Proof.
  intros Hre. right. exists 0, s, err.
  split; [reflexivity|]. split; [reflexivity|].
  split; [exists argv, r; auto|].
  intros [|j] s' err'; [reflexivity|].
  intros (a' & r' & _ & Hev & _). simpl in Hev.
  rewrite lookup_nil in Hev. discriminate.
Qed.

Lemma run_steps_cases (steps : list Step) (e : Env W) :
  exists evs,
    trace (run_steps exec steps e).2 = trace e ++ evs /\
    evs.*1 `prefix_of` steps.*1 /\
    Forall (produced exec) evs /\
    ended steps evs (run_steps exec steps e).1.
Proof.
  revert e. induction steps as [|[argv pol] steps IH]; intros e.
  - exists []. simpl. rewrite app_nil_r.
    split; [reflexivity|]. split; [apply prefix_nil|]. split; [constructor|].
    left. split; [reflexivity|]. split; [reflexivity|].
    intros i s err. apply failed_at_nil.
  - simpl. unfold bind, Run.
    destruct (exec argv (world e)) as [r w'] eqn:Hex.
    set (e1 := {| world := w'; trace := trace e ++ [(argv, r)] |}).
    assert (Hprod : produced exec (argv, r)).
    { exists (world e). simpl. now rewrite Hex. }
    assert (Hskip : (pol = BestEffort \/ run_error r = None) ->
      exists evs,
        trace (run_steps exec steps e1).2 = trace e ++ evs /\
        evs.*1 `prefix_of` ((argv, pol) :: steps).*1 /\
        Forall (produced exec) evs /\
        ended ((argv, pol) :: steps) evs (run_steps exec steps e1).1).
    { intros Hok. destruct (IH e1) as (evs & Htr & Hpre & Hall & Hend).
      exists ((argv, r) :: evs). simpl in Htr.
      split; [rewrite Htr, <- app_assoc; reflexivity|].
      split; [simpl; now apply prefix_cons|].
      split; [now constructor|].
      now apply ended_skip. }
    destruct pol as [|s]; destruct (run_error r) as [err|] eqn:Hre;
      try (apply Hskip; auto; fail).
    exists [(argv, r)]. simpl.
    split; [reflexivity|]. split; [apply prefix_cons, prefix_nil|].
    split; [now constructor|]. now apply ended_stop.
Qed.

(** [switchBranch] is the run of the fixed plan. *)
Lemma switchBranch_run_steps (projectPath branchName : string) (e : Env W) :
  switchBranch exec projectPath branchName e
  = run_steps exec (plan projectPath branchName) e.
Proof.
  unfold switchBranch, plan.
  destruct (decide (branchName <> "")) as [Hne|Heq];
    destruct (decide (branchName = "")) as [Heq'|Hne'];
    try contradiction; try (exfalso; apply Heq; exact Hne');
    simpl; unfold bind, Run;
    repeat match goal with
    | |- context [exec ?a ?w] =>
        destruct (exec a w) as [? ?]; simpl;
        try match goal with
        | |- context [run_error ?r] => destruct (run_error r); simpl
        end; try reflexivity
    end.
Qed.

Lemma new_events_app (e e' : Env W) evs :
  trace e' = trace e ++ evs -> new_events e e' = evs.
Proof. unfold new_events. intros ->. now rewrite drop_app_length. Qed.

Lemma chained_app (w w1 w2 : W) (evs1 evs2 : list Event) :
  chained exec w evs1 w1 -> chained exec w1 evs2 w2 ->
  chained exec w (evs1 ++ evs2) w2.
Proof.
  revert w. induction evs1 as [|[argv r] evs1 IH]; intros w H1 H2; simpl in *.
  - now subst w1.
  - destruct H1 as [Hr H1]. split; [exact Hr|]. now apply IH.
Qed.

(** The events [run_steps] logs are chained from the world it starts in
    to the world it ends in. *)
Lemma run_steps_chained (steps : list Step) (e : Env W) :
  exists evs,
    trace (run_steps exec steps e).2 = trace e ++ evs /\
    chained exec (world e) evs (world (run_steps exec steps e).2).
Proof.
  revert e. induction steps as [|[argv pol] steps IH]; intros e.
  - exists []. simpl. rewrite app_nil_r. auto.
  - simpl. unfold bind, Run.
    destruct (exec argv (world e)) as [r w'] eqn:Hex.
    set (e1 := {| world := w'; trace := trace e ++ [(argv, r)] |}).
    assert (Hskip : exists evs,
              trace (run_steps exec steps e1).2 = trace e ++ evs /\
              chained exec (world e) evs (world (run_steps exec steps e1).2)).
    { destruct (IH e1) as (evs & Htr & Hch).
      exists ((argv, r) :: evs). simpl in Htr.
      split; [rewrite Htr, <- app_assoc; reflexivity|].
      simpl. rewrite Hex. simpl. auto. }
    destruct pol as [|s]; destruct (run_error r) as [err|]; try exact Hskip.
    exists [(argv, r)]. simpl. rewrite Hex. simpl. auto.
Qed.

(** Both views of one run of [run_steps]. *)
Lemma run_steps_full (steps : list Step) (e : Env W) :
  exists evs,
    trace (run_steps exec steps e).2 = trace e ++ evs /\
    chained exec (world e) evs (world (run_steps exec steps e).2) /\
    evs.*1 `prefix_of` steps.*1 /\
    ended steps evs (run_steps exec steps e).1.
Proof.
  destruct (run_steps_cases steps e) as (evs & Htr & Hpre & _ & Hend).
  destruct (run_steps_chained steps e) as (evs' & Htr' & Hch).
  rewrite Htr in Htr'. apply app_inv_head in Htr'. subst evs'.
  exists evs. auto.
Qed.

(** ** C2 *)

(** C2: for every repository path and branch name (the empty name is
    the plain switch-to-main operation), [switchBranch] runs the
    commands of the fixed [plan] in order and nothing else: the events
    it adds to the trace are what [exec] really returned for these
    commands, each run in the world the previous one left, and the
    world it ends in is the world after the last of them.  It returns
    [nil] exactly when no aborting step failed, and then every step of
    the plan was run; when an aborting step fails it returns the error
    of that step's stage and that step is the last command run.  A
    best-effort step never stops the sequence, and no command beyond
    the plan (hence none undoing a completed step) is issued. *)
Theorem switchBranch_fixed_sequence (projectPath branchName : string) (e : Env W) :
  let r := (switchBranch exec projectPath branchName e).1 in
  let e' := (switchBranch exec projectPath branchName e).2 in
  let steps := plan projectPath branchName in
  let evs := new_events e e' in
  trace e' = trace e ++ evs /\
  chained exec (world e) evs (world e') /\
  evs.*1 `prefix_of` steps.*1 /\
  (r = None <-> forall i s err, ~ failed_at steps evs i s err) /\
  (r = None -> evs.*1 = steps.*1) /\
  (forall i s err, failed_at steps evs i s err ->
     r = Some (Errorf (stage_what s) err) /\ length evs = S i).
Proof.
  intros r e' steps evs. subst r e' evs.
  rewrite switchBranch_run_steps. fold steps.
  destruct (run_steps_full steps e) as (evs & Htr & Hch & Hpre & Hend).
  rewrite (new_events_app _ _ _ Htr).
  split; [assumption|]. split; [assumption|]. split; [assumption|].
  destruct Hend as [(Hr & Hcmds & Hno) | (i & s & err & Hr & Hlen & Hf & Huniq)].
  - split; [split; auto|]. split; [auto|].
    intros i s err Hf. now apply Hno in Hf.
  - split; [split|].
    + rewrite Hr. discriminate.
    + intros Hno. now apply Hno in Hf.
    + split; [rewrite Hr; discriminate|].
      intros j s' err' Hj. pose proof (Huniq _ _ _ Hj) as ->.
      destruct Hf as (a1 & r1 & Hs1 & He1 & Hr1).
      destruct Hj as (a2 & r2 & Hs2 & He2 & Hr2).
      assert (s' = s) as -> by congruence.
      assert (err' = err) as -> by congruence.
      auto.
Qed.




End ExecutorFacts.

(** ** C10 *)





(** ** Facts about the batch loop *)

Section BatchFacts.
Context {W : Type}.
Variable exec : list string -> W -> RunResult * W.

(** A repository whose aborting steps always succeed runs its whole
    plan and reports no error. *)
Lemma switchBranch_always_ok (p branch : string) (e : Env W) :
  always_ok exec p branch ->
  (switchBranch exec p branch e).1 = None /\
  exists evs,
    trace (switchBranch exec p branch e).2 = trace e ++ evs /\
    evs.*1 = (plan p branch).*1.
Proof.
  intros Hok. rewrite switchBranch_run_steps.
  destruct (run_steps_cases exec (plan p branch) e)
    as (evs & Htr & _ & Hprod & Hend).
  destruct Hend as [(Hr & Hcmds & _) | (i & s & err & _ & _ & Hf & _)].
  - split; [assumption|]. exists evs. auto.
  - exfalso. destruct Hf as (argv & r & Hst & Hev & Herr).
    rewrite Forall_lookup in Hprod. destruct (Hprod _ _ Hev) as [w Hw].
    simpl in Hw. apply list_elem_of_lookup_2 in Hst.
    specialize (Hok w argv s Hst). rewrite Hw in Hok. congruence.
Qed.

(** A repository whose fetch always fails stops after stash and fetch. *)
Lemma switchBranch_fetch_fails (p branch : string) (e : Env W) :
  fetch_fails exec p ->
  exists err r1 r2,
    (switchBranch exec p branch e).1 = Some (Errorf "failed to fetch" err) /\
    trace (switchBranch exec p branch e).2
      = trace e ++ [(git p ["stash"], r1); (git p ["fetch"; "origin"], r2)].
Proof.
  intros Hfail. unfold switchBranch, bind, Run.
  destruct (exec (git p ["stash"]) (world e)) as [r1 w1]. simpl.
  pose proof (Hfail w1) as Hf.
  destruct (exec (git p ["fetch"; "origin"]) w1) as [r2 w2]. simpl in *.
  destruct (run_error r2) as [err|]; [|congruence].
  exists err, r1, r2. simpl. rewrite <- app_assoc. auto.
Qed.

Lemma selected_ids_cons_true id rest :
  selected_ids ((id, true) :: rest) = id :: selected_ids rest.
Proof. reflexivity. Qed.

Lemma selected_ids_cons_false id rest :
  selected_ids ((id, false) :: rest) = selected_ids rest.
Proof. reflexivity. Qed.

Lemma elem_of_selected_ids id order :
  id ∈ selected_ids order <-> (id, true) ∈ order.
Proof.
  unfold selected_ids. rewrite list_elem_of_fmap. split.
  - intros ([i b] & -> & Hin). apply list_elem_of_filter in Hin as [Hb Hin].
    simpl in *. now subst b.
  - intros Hin. exists (id, true). split; [reflexivity|].
    apply list_elem_of_filter. auto.
Qed.

Lemma iteration_order_selected s order id :
  iteration_order s order -> (id, true) ∈ order <-> s !! id = Some true.
Proof.
  unfold iteration_order. intros Hp. rewrite Hp.
  apply elem_of_map_to_list.
Qed.

Lemma iteration_order_NoDup s order :
  iteration_order s order -> NoDup (selected_ids order).
Proof.
  unfold iteration_order, selected_ids. intros Hp.
  assert (Hnd : NoDup order.*1).
  { rewrite Hp. apply NoDup_fst_map_to_list. }
  assert (Hsub : (filter (fun x : Z * bool => x.2 = true) order).*1
                 `sublist_of` order.*1).
  { apply fmap_sublist. apply sublist_filter. }
  eapply sublist_NoDup; eassumption.
Qed.

Lemma cmds_of_on_repo ps branch id p argv :
  index ps id = Some p -> argv ∈ cmds_of ps branch id -> on_repo (path p) argv.
Proof.
  unfold cmds_of, plan. intros ->. simpl.
  destruct (decide (branch = "")); simpl; set_unfold;
    intros [-> | [-> | [-> | [-> | [-> | H]]]]]; try (eexists; reflexivity).
  - destruct H.
  - destruct H as [-> | []]. eexists; reflexivity.
Qed.

Lemma on_repo_inj p q argv : on_repo p argv -> on_repo q argv -> p = q.
Proof. intros [a ->] [b Hb]. unfold git in Hb. congruence. Qed.

Lemma index_inj (ps : list project) i j p q :
  NoDup (path <$> ps) ->
  index ps i = Some p -> index ps j = Some q -> path p = path q -> i = j.
Proof.
  unfold index. intros Hnd Hi Hj Hpq.
  destruct (decide (0 <= i)%Z); [|discriminate].
  destruct (decide (0 <= j)%Z); [|discriminate].
  assert (Z.to_nat i = Z.to_nat j); [|lia].
  eapply NoDup_lookup; [exact Hnd| |].
  - rewrite list_lookup_fmap, Hi. reflexivity.
  - rewrite list_lookup_fmap, Hj. simpl. now rewrite Hpq.
Qed.

Lemma cmds_of_index ps branch id p :
  index ps id = Some p -> cmds_of ps branch id = (plan (path p) branch).*1.
Proof. unfold cmds_of. now intros ->. Qed.

Lemma range_selected_skip ps branch id rest (e : Env W) :
  range_selected exec ps branch ((id, false) :: rest) e
  = range_selected exec ps branch rest e.
Proof. reflexivity. Qed.

Lemma range_selected_next ps branch id rest (e : Env W) p :
  index ps id = Some p ->
  (switchBranch exec (path p) branch e).1 = None ->
  range_selected exec ps branch ((id, true) :: rest) e
  = range_selected exec ps branch rest (switchBranch exec (path p) branch e).2.
Proof.
  intros Hp Hr. cbn [range_selected negb]. rewrite Hp. unfold bind.
  destruct (switchBranch exec (path p) branch e) as [r e1].
  cbn [fst snd] in *. now subst r.
Qed.

Lemma range_selected_stop ps branch id rest (e : Env W) p x :
  index ps id = Some p ->
  (switchBranch exec (path p) branch e).1 = Some x ->
  range_selected exec ps branch ((id, true) :: rest) e
  = (Returned (mkMsg msgError (Some x)),
     (switchBranch exec (path p) branch e).2).
Proof.
  intros Hp Hr. cbn [range_selected negb]. rewrite Hp. unfold bind.
  destruct (switchBranch exec (path p) branch e) as [r e1].
  cbn [fst snd] in *. now subst r.
Qed.

(** The loop when one selected repository cannot fetch and the others
    cannot fail: it gets as far as that repository and stops there. *)
Lemma range_selected_failing_fetch ps branch idf pf order (e : Env W) :
  index ps idf = Some pf ->
  fetch_fails exec (path pf) ->
  (forall id, (id, true) ∈ order -> id <> idf ->
     exists p, index ps id = Some p /\ always_ok exec (path p) branch) ->
  (idf, true) ∈ order ->
  exists pre post err evs,
    selected_ids order = pre ++ idf :: post /\
    (forall id, id ∈ pre -> id <> idf /\ is_Some (index ps id)) /\
    (range_selected exec ps branch order e).1
      = Returned (mkMsg msgError (Some (Errorf "failed to fetch" err))) /\
    trace (range_selected exec ps branch order e).2 = trace e ++ evs /\
    evs.*1 = concat (cmds_of ps branch <$> pre)
             ++ [git (path pf) ["stash"]; git (path pf) ["fetch"; "origin"]].
Proof.
  intros Hpf Hfail. revert e.
  induction order as [|[id b] rest IH]; intros e Hgood Hin.
  - apply elem_of_nil in Hin. destruct Hin.
  - assert (Hgood' : forall id', (id', true) ∈ rest -> id' <> idf ->
              exists p, index ps id' = Some p /\ always_ok exec (path p) branch).
    { intros id' Hid'. apply Hgood. now apply list_elem_of_further. }
    destruct b.
    + destruct (decide (id = idf)) as [->|Hne].
      * destruct (switchBranch_fetch_fails (path pf) branch e Hfail)
          as (err & r1 & r2 & Hr & Htr).
        rewrite (range_selected_stop _ _ _ _ _ _ _ Hpf Hr). cbn [fst snd].
        exists [], (selected_ids rest), err,
          [(git (path pf) ["stash"], r1); (git (path pf) ["fetch"; "origin"], r2)].
        split; [reflexivity|].
        split; [intros id' Hid'; now apply elem_of_nil in Hid'|].
        split; [reflexivity|]. split; [exact Htr|reflexivity].
      * destruct (Hgood id) as (p & Hp & Hok); [apply list_elem_of_here|assumption|].
        destruct (switchBranch_always_ok (path p) branch e Hok)
          as (Hr & evs1 & Htr1 & Hcmds1).
        rewrite (range_selected_next _ _ _ _ _ _ Hp Hr).
        assert (Hin' : (idf, true) ∈ rest).
        { apply elem_of_cons in Hin as [Heq|Hin]; [congruence|assumption]. }
        destruct (IH (switchBranch exec (path p) branch e).2 Hgood' Hin')
          as (pre & post & err & evs & Hids & Hpre & Hres & Htr & Hcmds).
        exists (id :: pre), post, err, (evs1 ++ evs).
        split; [rewrite selected_ids_cons_true, Hids; reflexivity|].
        split.
        { intros id' Hid'. apply elem_of_cons in Hid' as [->|Hid'].
          - split; [assumption|]. rewrite Hp. eauto.
          - now apply Hpre. }
        split; [exact Hres|].
        split; [rewrite Htr, Htr1, <- app_assoc; reflexivity|].
        rewrite fmap_app, Hcmds, Hcmds1, fmap_cons, concat_cons.
        rewrite (cmds_of_index _ _ _ _ Hp), <- app_assoc. reflexivity.
    + assert (Hin' : (idf, true) ∈ rest).
      { apply elem_of_cons in Hin as [Heq|Hin]; [congruence|assumption]. }
      rewrite range_selected_skip.
      destruct (IH e Hgood' Hin') as (pre & post & err & evs & Hids & Hpre & Hres & Htr & Hcmds).
      exists pre, post, err, evs.
      rewrite selected_ids_cons_false. auto.
Qed.

(** The loop in general: it visits the selected entries in iteration
    order and either gets through all of them, or stops at the first
    repository whose sequence fails. *)
Lemma range_selected_cases ps branch order (e : Env W) :
  (forall id, (id, true) ∈ order -> is_Some (index ps id)) ->
  exists evs,
    trace (range_selected exec ps branch order e).2 = trace e ++ evs /\
    (((range_selected exec ps branch order e).1
        = Returned (mkMsg msgProcessComplete None) /\
      evs.*1 = concat (cmds_of ps branch <$> selected_ids order))
     \/
     (exists pre idf post p evs_pre evs_f i s err,
        selected_ids order = pre ++ idf :: post /\
        index ps idf = Some p /\
        (range_selected exec ps branch order e).1
          = Returned (mkMsg msgError (Some (Errorf (stage_what s) err))) /\
        evs = evs_pre ++ evs_f /\
        evs_pre.*1 = concat (cmds_of ps branch <$> pre) /\
        evs_f.*1 `prefix_of` (plan (path p) branch).*1 /\
        failed_at (plan (path p) branch) evs_f i s err /\
        length evs_f = S i)).
Proof.
  revert e. induction order as [|[id b] rest IH]; intros e Hrange.
  - exists []. cbn [range_selected ret fst snd]. rewrite app_nil_r.
    split; [reflexivity|]. left. auto.
  - assert (Hrange' : forall id', (id', true) ∈ rest -> is_Some (index ps id')).
    { intros id' Hid'. apply Hrange. now apply list_elem_of_further. }
    destruct b.
    + destruct (Hrange id) as [p Hp]; [apply list_elem_of_here|].
      destruct (run_steps_cases exec (plan (path p) branch) e)
        as (evs1 & Htr1 & Hpre1 & _ & Hend).
      rewrite <- switchBranch_run_steps in Htr1, Hend.
      destruct Hend as [(Hr & Hcmds1 & _) | (i & s & err & Hr & Hlen & Hf & _)].
      * rewrite (range_selected_next _ _ _ _ _ _ Hp Hr).
        destruct (IH (switchBranch exec (path p) branch e).2 Hrange')
          as (evs & Htr & Hcase).
        exists (evs1 ++ evs).
        split; [rewrite Htr, Htr1, <- app_assoc; reflexivity|].
        destruct Hcase as [(Hres & Hcmds)
          | (pre & idf & post & q & evs_pre & evs_f & i & s & err
             & Hids & Hq & Hres & Hevs & Hcpre & Hpref & Hf & Hlen)].
        -- left. split; [exact Hres|].
           rewrite fmap_app, Hcmds, Hcmds1, selected_ids_cons_true.
           rewrite fmap_cons, concat_cons.
           now rewrite (cmds_of_index _ _ _ _ Hp).
        -- right.
           exists (id :: pre), idf, post, q, (evs1 ++ evs_pre), evs_f, i, s, err.
           split; [rewrite selected_ids_cons_true, Hids; reflexivity|].
           split; [exact Hq|]. split; [exact Hres|].
           split; [rewrite Hevs, <- app_assoc; reflexivity|].
           split; [|auto].
           rewrite fmap_app, Hcpre, Hcmds1, fmap_cons, concat_cons.
           now rewrite (cmds_of_index _ _ _ _ Hp).
      * rewrite (range_selected_stop _ _ _ _ _ _ _ Hp Hr). cbn [fst snd].
        exists evs1. split; [exact Htr1|]. right.
        exists [], id, (selected_ids rest), p, [], evs1, i, s, err.
        split; [reflexivity|]. split; [exact Hp|]. split; [reflexivity|].
        split; [reflexivity|]. split; [reflexivity|]. auto.
    + rewrite range_selected_skip.
      destruct (IH e Hrange') as (evs & Htr & Hcase).
      exists evs. rewrite selected_ids_cons_false. auto.
Qed.

Lemma elem_of_concat_cmds ps branch (ids : list Z) argv :
  argv ∈ concat (cmds_of ps branch <$> ids) ->
  exists id, id ∈ ids /\ argv ∈ cmds_of ps branch id.
Proof.
  induction ids as [|id ids IH].
  - intros H. now apply elem_of_nil in H.
  - rewrite fmap_cons, concat_cons, elem_of_app. intros [H|H].
    + exists id. split; [apply list_elem_of_here|exact H].
    + destruct (IH H) as (id' & Hin & Hc). exists id'.
      split; [now apply list_elem_of_further|exact Hc].
Qed.

(** ** C1 *)

(** C1 (amended): when the fetch of exactly one selected repository
    fails and no other step of any selected repository can fail, the
    batch does not produce one outcome per repository.  It works
    through the selected repositories one after the other in the
    iteration order of the selection map; those reached before the
    failing one run their complete sequence; the failing one stops
    after stash and fetch; the batch then returns a single [msgError]
    message carrying the fetch error, and no command is ever run on a
    repository that comes later in the order. *)
Theorem batch_stops_at_failing_fetch (m : model) (branch : string)
    (order : list (Z * bool)) (idf : Z) (pf : project) (e : Env W) :
  iteration_order (selected m) order ->
  NoDup (path <$> projects m) ->
  selected m !! idf = Some true ->
  index (projects m) idf = Some pf ->
  fetch_fails exec (path pf) ->
  (forall id, selected m !! id = Some true -> id <> idf ->
     exists p, index (projects m) id = Some p /\ always_ok exec (path p) branch) ->
  let res := processProjects_callback exec m branch order e in
  exists pre post err,
    selected_ids order = pre ++ idf :: post /\
    res.1 = Returned (mkMsg msgError (Some (Errorf "failed to fetch" err))) /\
    (new_events e res.2).*1
      = concat (cmds_of (projects m) branch <$> pre)
        ++ [git (path pf) ["stash"]; git (path pf) ["fetch"; "origin"]] /\
    forall id p, id ∈ post -> index (projects m) id = Some p ->
      Forall (fun argv => ~ on_repo (path p) argv) (new_events e res.2).*1.
Proof.
  intros Hord Hnd Hsel Hpf Hfail Hothers res. subst res.
  unfold processProjects_callback.
  destruct (range_selected_failing_fetch (projects m) branch idf pf order e Hpf Hfail)
    as (pre & post & err & evs & Hids & Hpre & Hres & Htr & Hcmds).
  { intros id Hin. apply Hothers.
    now apply (iteration_order_selected _ _ _ Hord). }
  { now apply (iteration_order_selected _ _ _ Hord). }
  exists pre, post, err. rewrite (new_events_app _ _ _ Htr).
  split; [exact Hids|]. split; [exact Hres|]. split; [exact Hcmds|].
  intros id p Hid Hp.
  pose proof (iteration_order_NoDup _ _ Hord) as Hnd'. rewrite Hids in Hnd'.
  apply NoDup_app in Hnd' as (_ & Hdisj & Hnd').
  apply NoDup_cons in Hnd' as [Hnotin _].
  rewrite Hcmds. apply Forall_app. split.
  - apply Forall_forall. intros argv Hin Hon.
    apply elem_of_concat_cmds in Hin as (id' & Hid' & Hc).
    destruct (Hpre id' Hid') as [_ [p' Hp']].
    pose proof (cmds_of_on_repo _ _ _ _ _ Hp' Hc) as Hon'.
    pose proof (on_repo_inj _ _ _ Hon Hon') as Hpath.
    pose proof (index_inj _ _ _ _ _ Hnd Hp Hp' Hpath) as ->.
    apply (Hdisj id' Hid'). now apply list_elem_of_further.
  - assert (Hne : path p <> path pf).
    { intros Hpath. pose proof (index_inj _ _ _ _ _ Hnd Hp Hpf Hpath) as ->.
      contradiction. }
    repeat constructor; intros Hon; apply Hne;
      (eapply on_repo_inj; [exact Hon | eexists; reflexivity]).
Qed.



(** The loop as a sequence of blocks, one per repository reached, with
    the results [exec] really gave: every repository before the last
    block ran its whole plan without a failing aborting step. *)
Lemma range_selected_blocks ps branch order (e : Env W) :
  (forall id, (id, true) ∈ order -> is_Some (index ps id)) ->
  exists segs,
    trace (range_selected exec ps branch order e).2 = trace e ++ concat segs /\
    chained exec (world e) (concat segs)
      (world (range_selected exec ps branch order e).2) /\
    (((range_selected exec ps branch order e).1
        = Returned (mkMsg msgProcessComplete None) /\
      Forall2 (ran_clean ps branch) (selected_ids order) segs)
     \/
     (exists pre idf post p segs_pre evs_f i s err,
        selected_ids order = pre ++ idf :: post /\
        segs = segs_pre ++ [evs_f] /\
        Forall2 (ran_clean ps branch) pre segs_pre /\
        index ps idf = Some p /\
        evs_f.*1 `prefix_of` (plan (path p) branch).*1 /\
        failed_at (plan (path p) branch) evs_f i s err /\
        length evs_f = S i /\
        (range_selected exec ps branch order e).1
          = Returned (mkMsg msgError (Some (Errorf (stage_what s) err))))).
Proof.
  revert e. induction order as [|[id b] rest IH]; intros e Hrange.
  - exists []. cbn [range_selected ret fst snd concat]. rewrite app_nil_r.
    split; [reflexivity|]. split; [reflexivity|]. left.
    split; [reflexivity|constructor].
  - assert (Hrange' : forall id', (id', true) ∈ rest -> is_Some (index ps id')).
    { intros id' Hid'. apply Hrange. now apply list_elem_of_further. }
    destruct b.
    + destruct (Hrange id) as [p Hp]; [apply list_elem_of_here|].
      destruct (run_steps_full exec (plan (path p) branch) e)
        as (evs1 & Htr1 & Hch1 & Hpre1 & Hend).
      rewrite <- switchBranch_run_steps in Htr1, Hch1, Hend.
      destruct Hend as [(Hr & Hcmds1 & Hno) | (i & s & err & Hr & Hlen & Hf & _)].
      * rewrite (range_selected_next _ _ _ _ _ _ Hp Hr).
        destruct (IH (switchBranch exec (path p) branch e).2 Hrange')
          as (segs & Htr & Hch & Hcase).
        exists (evs1 :: segs). rewrite concat_cons.
        split; [rewrite Htr, Htr1, <- app_assoc; reflexivity|].
        split; [exact (chained_app exec _ _ _ _ _ Hch1 Hch)|].
        assert (Hclean : ran_clean ps branch id evs1) by (exists p; auto).
        destruct Hcase as [(Hres & Hall)
          | (pre & idf & post & q & segs_pre & evs_f & i & s & err
             & Hids & Hsegs & Hall & Hq & Hpref & Hf & Hlen & Hres)].
        -- left. split; [exact Hres|].
           rewrite selected_ids_cons_true. now constructor.
        -- right.
           exists (id :: pre), idf, post, q, (evs1 :: segs_pre), evs_f, i, s, err.
           split; [rewrite selected_ids_cons_true, Hids; reflexivity|].
           split; [rewrite Hsegs; reflexivity|].
           split; [now constructor|]. auto 10.
      * rewrite (range_selected_stop _ _ _ _ _ _ _ Hp Hr). cbn [fst snd].
        exists [evs1]. cbn [concat]. rewrite app_nil_r.
        split; [exact Htr1|]. split; [exact Hch1|]. right.
        exists [], id, (selected_ids rest), p, [], evs1, i, s, err.
        split; [reflexivity|]. split; [reflexivity|].
        split; [constructor|]. auto 10.
    + rewrite range_selected_skip.
      destruct (IH e Hrange') as (segs & Htr & Hch & Hcase).
      exists segs. rewrite selected_ids_cons_false. auto.
Qed.

(** ** C3 *)

(** C3 (amended): the batch carries no collection of per-repository
    outcomes; it returns one message.  The selected repositories are
    worked on one after the other in the iteration order of the
    selection map, an order Go does not fix; the commands logged, one
    block per repository reached, are what [exec] really returned, each
    command run in the world the previous one left.  Either every
    selected repository ran its whole plan without a failing aborting
    step and the message is [msgProcessComplete]; or the message is
    [msgError] with the error of the first repository, in that order,
    whose sequence fails: every repository before it ran its whole plan
    without a failing aborting step, and its own block ends with the
    failing step whose stage and error text make up the message. *)
Theorem batch_follows_iteration_order (m : model) (branch : string)
    (order : list (Z * bool)) (e : Env W) :
  iteration_order (selected m) order ->
  (forall id, selected m !! id = Some true -> is_Some (index (projects m) id)) ->
  let res := processProjects_callback exec m branch order e in
  exists segs,
    new_events e res.2 = concat segs /\
    chained exec (world e) (concat segs) (world res.2) /\
    ((res.1 = Returned (mkMsg msgProcessComplete None) /\
      Forall2 (ran_clean (projects m) branch) (selected_ids order) segs)
     \/
     (exists pre idf post p segs_pre evs_f i s err,
        selected_ids order = pre ++ idf :: post /\
        segs = segs_pre ++ [evs_f] /\
        Forall2 (ran_clean (projects m) branch) pre segs_pre /\
        index (projects m) idf = Some p /\
        evs_f.*1 `prefix_of` (plan (path p) branch).*1 /\
        failed_at (plan (path p) branch) evs_f i s err /\
        length evs_f = S i /\
        res.1 = Returned (mkMsg msgError (Some (Errorf (stage_what s) err))))).
Proof.
  intros Hord Hrange res. subst res. unfold processProjects_callback.
  destruct (range_selected_blocks (projects m) branch order e)
    as (segs & Htr & Hch & Hcase).
  { intros id Hin. apply Hrange.
    now apply (iteration_order_selected _ _ _ Hord). }
  exists segs. rewrite (new_events_app _ _ _ Htr). auto.
Qed.

(** ** C7 *)


End BatchFacts.

(** ** The batch on the fixtures *)

Lemma two_repos_reachable :
  press (initialModel [repo_a; repo_b]) ["enter"] = two_repos.
Proof. vm_compute. reflexivity. Qed.

Lemma a_then_b_order : iteration_order (selected two_repos) a_then_b.
Proof.
  unfold iteration_order.
  assert (Hl : map_to_list (selected two_repos) = b_then_a) by (vm_compute; reflexivity).
  rewrite Hl. apply perm_swap.
Defined.

Lemma b_then_a_order : iteration_order (selected two_repos) b_then_a.
Proof.
  unfold iteration_order.
  assert (Hl : map_to_list (selected two_repos) = b_then_a) by (vm_compute; reflexivity).
  rewrite Hl. reflexivity.
Defined.

Lemma two_repos_selected id :
  selected two_repos !! id = Some true -> id = 0%Z \/ id = 1%Z.
Proof.
  unfold two_repos, selected. rewrite !lookup_insert.
  destruct (decide (1%Z = id)); [auto|].
  destruct (decide (0%Z = id)); [auto|].
  rewrite lookup_empty. discriminate.
Defined.

Lemma fetch_a_fails_b_ok : always_ok (scripted fetch_a_fails) "/w/b" "".
Proof.
  intros w argv s Hin. unfold plan in Hin. simpl in Hin.
  repeat (apply elem_of_cons in Hin as [Hin|Hin];
          [injection Hin as -> _; try discriminate; vm_compute; reflexivity|]).
  now apply elem_of_nil in Hin.
Defined.

(** C1 (counterexample): two repositories are selected and only the
    fetch of [repo_a] fails.  When the map yields [repo_a] first, the
    batch returns one error message and stops: no command at all is run
    on [repo_b], whose sequence is never started, and there is no
    outcome for it. *)
Lemma failing_fetch_blocks_later_repository :
  let res := processProjects_callback (scripted fetch_a_fails)
               two_repos "" a_then_b start in
  iteration_order (selected two_repos) a_then_b /\
  fetch_fails (scripted fetch_a_fails) "/w/a" /\
  always_ok (scripted fetch_a_fails) "/w/b" "" /\
  res.1 = Returned (mkMsg msgError (Some "failed to fetch: exit status 128")) /\
  (trace res.2).*1 = [git "/w/a" ["stash"]; git "/w/a" ["fetch"; "origin"]] /\
  ~ Exists (on_repo "/w/b") (trace res.2).*1.
Proof.
  intros res.
  assert (Htr : (trace res.2).*1
                = [git "/w/a" ["stash"]; git "/w/a" ["fetch"; "origin"]])
    by (vm_compute; reflexivity).
  split; [exact a_then_b_order|].
  split; [intros w; vm_compute; discriminate|].
  split; [exact fetch_a_fails_b_ok|].
  split; [vm_compute; reflexivity|].
  split; [exact Htr|].
  rewrite Htr. intros H.
  repeat (apply Exists_cons in H as [[args Hx]|H]; [discriminate Hx|]).
  now apply Exists_nil in H.
Qed.

(** The statement at the fixtures: [repo_b] is reached first and runs its
    whole plan, then the fetch of [repo_a] fails. *)
Lemma batch_stops_at_failing_fetch_witness :
  let res := processProjects_callback (scripted fetch_a_fails)
               two_repos "" b_then_a start in
  exists pre post err,
    selected_ids b_then_a = pre ++ 0%Z :: post /\
    res.1 = Returned (mkMsg msgError (Some (Errorf "failed to fetch" err))) /\
    (new_events start res.2).*1
      = concat (cmds_of (projects two_repos) "" <$> pre)
        ++ [git (path repo_a) ["stash"]; git (path repo_a) ["fetch"; "origin"]] /\
    forall id p, id ∈ post -> index (projects two_repos) id = Some p ->
      Forall (fun argv => ~ on_repo (path p) argv) (new_events start res.2).*1.
Proof.
  apply (batch_stops_at_failing_fetch (scripted fetch_a_fails)
           two_repos "" b_then_a 0%Z repo_a start).
  - exact b_then_a_order.
  - apply (bool_decide_unpack _). vm_compute. exact I.
  - reflexivity.
  - reflexivity.
  - intros w. vm_compute. discriminate.
  - intros id Hsel Hne.
    destruct (two_repos_selected id Hsel) as [->| ->]; [contradiction|].
    exists repo_b. split; [reflexivity|]. exact fetch_a_fails_b_ok.
Defined.

(** C3 (counterexample): with the fetch of [repo_a] and the pull of
    [repo_b] both failing, the two iteration orders of one and the same
    selection give different results: the result is the error of
    whichever repository the map yields first, and the other repository
    has no outcome in it. *)
Lemma batch_result_depends_on_iteration_order :
  let result order :=
    (processProjects_callback (scripted fetch_a_pull_b_fail)
       two_repos "" order start).1 in
  iteration_order (selected two_repos) a_then_b /\
  iteration_order (selected two_repos) b_then_a /\
  result a_then_b = Returned (mkMsg msgError (Some "failed to fetch: exit status 128")) /\
  result b_then_a = Returned (mkMsg msgError (Some "failed to pull: exit status 1")) /\
  result a_then_b <> result b_then_a.
Proof.
  intros result.
  split; [exact a_then_b_order|]. split; [exact b_then_a_order|].
  split; [vm_compute; reflexivity|]. split; [vm_compute; reflexivity|].
  vm_compute. discriminate.
Qed.

(** The statement at the fixtures, in the order [repo_b], [repo_a]. *)
Lemma batch_follows_iteration_order_witness :
  let res := processProjects_callback (scripted fetch_a_pull_b_fail)
               two_repos "" b_then_a start in
  exists segs,
    new_events start res.2 = concat segs /\
    chained (scripted fetch_a_pull_b_fail) (world start) (concat segs) (world res.2) /\
    ((res.1 = Returned (mkMsg msgProcessComplete None) /\
      Forall2 (ran_clean (projects two_repos) "") (selected_ids b_then_a) segs)
     \/
     (exists pre idf post p segs_pre evs_f i s err,
        selected_ids b_then_a = pre ++ idf :: post /\
        segs = segs_pre ++ [evs_f] /\
        Forall2 (ran_clean (projects two_repos) "") pre segs_pre /\
        index (projects two_repos) idf = Some p /\
        evs_f.*1 `prefix_of` (plan (path p) "").*1 /\
        failed_at (plan (path p) "") evs_f i s err /\
        length evs_f = S i /\
        res.1 = Returned (mkMsg msgError (Some (Errorf (stage_what s) err))))).
Proof.
  apply (batch_follows_iteration_order (scripted fetch_a_pull_b_fail)
           two_repos "" b_then_a start).
  - exact b_then_a_order.
  - intros id Hsel.
    destruct (two_repos_selected id Hsel) as [->| ->]; eexists; reflexivity.
Defined.



(** ** Facts about [Update] *)

Lemma maplen_zero (s : gmap Z bool) : maplen s = 0%Z <-> s = ∅.
Proof.
  unfold maplen. rewrite <- map_size_empty_iff. lia.
Qed.

(** X25: the guard of the confirm key does what it is there for when
    the selection map has no entry at all: on the selection screen,
    confirm then sets the error text [No projects selected], changes
    nothing else and returns no command. *)
Lemma confirm_empty_map_sets_error (m : model) :
  cur_mode m = modeSelectProjects -> selected m = ∅ ->
  Update m (KeyMsg "enter") = (with_error "No projects selected" m, None).
Proof.
  intros Hmode Hsel. unfold Update. rewrite Hmode.
  unfold updateProjectSelect. simpl.
  destruct (decide (maplen (selected m) = 0%Z)) as [_|Hne]; [reflexivity|].
  exfalso. apply Hne. now apply maplen_zero.
Qed.

(** ** C4 *)

(** C4 (the code at the failing input): after the automatic selection
    of the only repository has been toggled off, no repository is
    selected, every index reading [false]; yet the map still has one
    entry, so confirm sets no error and returns the batch command; with
    the create-branch action it moves on to the branch-name screen. *)
Theorem confirm_with_unticked_entries_proceeds :
  cur_mode one_unticked = modeSelectProjects /\
  (forall i, sel_get (selected one_unticked) i = false) /\
  Update one_unticked (KeyMsg "enter")
    = (one_unticked, Some (processProjects one_unticked "")) /\
  error_text (Update one_unticked (KeyMsg "enter")).1 = "" /\
  cur_mode one_unticked_branch = modeSelectProjects /\
  (forall i, sel_get (selected one_unticked_branch) i = false) /\
  cur_mode (Update one_unticked_branch (KeyMsg "enter")).1 = modeEnterBranch.
Proof.
  assert (Hsel : selected one_unticked = <[0%Z := false]> ∅)
    by (vm_compute; reflexivity).
  assert (Hsel' : selected one_unticked_branch = <[0%Z := false]> ∅)
    by (vm_compute; reflexivity).
  assert (Hget : forall i, sel_get (<[0%Z := false]> ∅) i = false).
  { intros i. unfold sel_get. rewrite lookup_insert.
    destruct (decide (0%Z = i)); [reflexivity|]. now rewrite lookup_empty. }
  split; [reflexivity|].
  split; [intros i; rewrite Hsel; apply Hget|].
  split; [vm_compute; reflexivity|].
  split; [vm_compute; reflexivity|].
  split; [reflexivity|].
  split; [intros i; rewrite Hsel'; apply Hget|].
  vm_compute. reflexivity.
Qed.

(** ** C5 *)

(** C5 (the code at the failing input): with two repositories of which
    the first has been toggled off, the selection is not the full set
    (index 0 reads [false]); the map still has as many entries as there
    are repositories, so toggle-all clears the selection instead of
    selecting every repository. *)
Theorem toggle_all_clears_partial_selection :
  cur_mode first_unticked = modeSelectProjects /\
  sel_get (selected first_unticked) 0 = false /\
  sel_get (selected first_unticked) 1 = true /\
  selected (Update first_unticked (KeyMsg "a")).1 = ∅ /\
  selected (Update first_unticked (KeyMsg "a")).1
    <> mark_all (projects first_unticked) ∅.
Proof.
  split; [reflexivity|]. split; [vm_compute; reflexivity|].
  split; [vm_compute; reflexivity|].
  assert (Hclr : selected (Update first_unticked (KeyMsg "a")).1 = ∅)
    by (vm_compute; reflexivity).
  split; [exact Hclr|].
  rewrite Hclr. intros Heq.
  assert (Hl : (∅ : gmap Z bool) !! 0%Z = mark_all (projects first_unticked) ∅ !! 0%Z)
    by (now rewrite <- Heq).
  rewrite lookup_empty in Hl. vm_compute in Hl. discriminate.
Qed.

(** ** C6 *)

(** C6 (the code at the failing input): the selection screen reached
    from the initial model of [repo_a] and [repo_b] by the enter key has
    both repositories selected and the plain switch action.  Confirm
    there returns a batch command with the empty branch name, but the
    model stays as it is: the mode is still [modeSelectProjects], not
    [modeProcessing], and the [processing] flag is not set.  When the
    batch's [msgProcessComplete] or [msgError] message is delivered
    afterwards, [Update] has no case for it: the model is returned
    unchanged with no command, so nothing records that the batch has
    ended. *)
Theorem confirm_does_not_enter_processing :
  let m1 := (Update two_repos (KeyMsg "enter")).1 in
  press (initialModel [repo_a; repo_b]) ["enter"] = two_repos /\
  cur_mode two_repos = modeSelectProjects /\
  selected two_repos !! 0%Z = Some true /\
  action two_repos = 0%Z /\
  (exists ms captured, (Update two_repos (KeyMsg "enter")).2
                       = Some (Tick ms captured "")) /\
  m1 = two_repos /\
  cur_mode m1 <> modeProcessing /\
  processing m1 = false /\
  Update m1 (AppMsg (mkMsg msgProcessComplete None)) = (m1, None) /\
  Update m1 (AppMsg (mkMsg msgError (Some "failed to fetch: exit status 128")))
    = (m1, None).
Proof.
  intros m1.
  assert (H1 : m1 = two_repos) by (vm_compute; reflexivity).
  split; [exact two_repos_reachable|].
  split; [reflexivity|]. split; [reflexivity|]. split; [reflexivity|].
  split; [eexists _, _; vm_compute; reflexivity|].
  split; [exact H1|]. rewrite H1.
  split; [discriminate|]. repeat split; reflexivity.
Qed.

(** ** Facts about repository discovery *)

Lemma string_leb_refl (a : string) : String.leb a a = true.
Proof. destruct (String.leb_total a a); assumption. Qed.

Lemma string_ltb_leb (a b : string) : String.ltb a b = true -> String.leb a b = true.
Proof.
  unfold String.ltb, String.leb. destruct (String.compare a b); congruence.
Qed.

Lemma string_not_ltb_leb (a b : string) :
  String.ltb a b = false -> String.leb b a = true.
Proof.
  unfold String.ltb, String.leb. rewrite (String.compare_antisym a b).
  destruct (String.compare b a); simpl; congruence.
Qed.

Lemma string_leb_cases (a b : string) :
  String.leb a b = true <-> a = b \/ OrderedTypeEx.String_as_OT.lt a b.
Proof.
  unfold String.leb. split.
  - destruct (String.compare a b) eqn:Hc; intros H; try discriminate.
    + left. now apply String.compare_eq_iff.
    + right. now apply OrderedTypeEx.String_as_OT.cmp_lt.
  - intros [->|Hlt].
    + pose proof (string_leb_refl b) as Hr. unfold String.leb in Hr. exact Hr.
    + apply OrderedTypeEx.String_as_OT.cmp_lt in Hlt.
      unfold OrderedTypeEx.String_as_OT.cmp in Hlt. now rewrite Hlt.
Qed.

Lemma string_leb_trans (a b c : string) :
  String.leb a b = true -> String.leb b c = true -> String.leb a c = true.
Proof.
  rewrite !string_leb_cases. intros [->|Hab] [->|Hbc]; auto.
  right. eapply OrderedTypeEx.String_as_OT.lt_trans; eassumption.
Qed.

Lemma name_le_trans : Transitive name_le.
Proof. intros a b c. unfold name_le. apply string_leb_trans. Qed.

Lemma insert_by_perm (x : project) (l : list project) :
  insert_by name_less x l ≡ₚ x :: l.
Proof.
  induction l as [|y l IH]; simpl; [reflexivity|].
  destruct (name_less x y); [reflexivity|].
  rewrite IH. apply perm_swap.
Qed.

Lemma sort_Slice_perm (l : list project) : sort_Slice name_less l ≡ₚ l.
Proof.
  induction l as [|x l IH]; simpl; [reflexivity|].
  unfold sort_Slice in *. simpl. rewrite insert_by_perm. now rewrite IH.
Qed.

Lemma insert_by_sorted (x : project) (l : list project) :
  Sorted name_le l -> Sorted name_le (insert_by name_less x l).
Proof.
  induction l as [|y l IH]; intros Hs; simpl.
  - repeat constructor.
  - unfold name_less at 1. destruct (String.ltb (name x) (name y)) eqn:Hlt.
    + constructor; [assumption|]. constructor. now apply string_ltb_leb.
    + apply Sorted_inv in Hs as [Hs Hhd].
      constructor; [now apply IH|].
      destruct l as [|z l]; simpl.
      * constructor. now apply string_not_ltb_leb.
      * unfold name_less. destruct (String.ltb (name x) (name z)).
        -- constructor. now apply string_not_ltb_leb.
        -- constructor. now apply HdRel_inv in Hhd.
Qed.

Lemma sort_Slice_sorted (l : list project) :
  StronglySorted name_le (sort_Slice name_less l).
Proof.
  apply Sorted_StronglySorted; [apply name_le_trans|].
  induction l as [|x l IH]; simpl; [constructor|].
  unfold sort_Slice in *. simpl. now apply insert_by_sorted.
Qed.

(** Two sorted arrangements of the same projects are the same list when
    projects of equal name are equal: whichever sort [sort.Slice] runs,
    its result on the slice built by [findProjects] is the one computed
    here. *)
Lemma sorted_by_name_unique (l1 l2 : list project) :
  (forall a b, a ∈ l1 -> b ∈ l1 -> name a = name b -> a = b) ->
  l1 ≡ₚ l2 -> StronglySorted name_le l1 -> StronglySorted name_le l2 ->
  l1 = l2.
Proof.
  revert l2. induction l1 as [|a l1 IH]; intros l2 Hinj Hp Hs1 Hs2.
  - now apply Permutation_nil_l in Hp.
  - destruct l2 as [|b l2].
    { now apply Permutation_nil_r in Hp. }
    apply StronglySorted_inv in Hs1 as [Hs1 Ha].
    apply StronglySorted_inv in Hs2 as [Hs2 Hb].
    rewrite Forall_forall in Ha, Hb.
    assert (Hab : a = b).
    { destruct (decide (a = b)) as [|Hne]; [assumption|].
      assert (Hin_a : a ∈ b :: l2) by (rewrite <- Hp; apply list_elem_of_here).
      assert (Hin_b : b ∈ a :: l1) by (rewrite Hp; apply list_elem_of_here).
      apply elem_of_cons in Hin_a as [?|Hin_a]; [contradiction|].
      apply elem_of_cons in Hin_b as [?|Hin_b]; [congruence|].
      apply Hinj; [apply list_elem_of_here|now apply list_elem_of_further|].
      apply String.leb_antisym; [now apply Ha|now apply Hb]. }
    subst b. f_equal. apply IH; auto.
    + intros x y Hx Hy. apply Hinj; now apply list_elem_of_further.
    + now apply Permutation_cons_inv in Hp.
Qed.

Section LocatorFacts.
Variable Dir : string -> string.
Variable Join : list string -> string.

(** The loop of [findProjects] collects the descriptors of the
    qualifying entries, in the order of the entries. *)
Lemma collect_descriptors (fs : FS) (parent : string)
    (dirs : list DirEntry) (acc : list project) :
  foldl (fun projects dir =>
           if is_repository Join fs parent dir
           then projects ++ [descriptor Join parent dir]
           else projects) acc dirs
  = acc ++ (descriptor Join parent
            <$> filter (fun d => is_repository Join fs parent d = true) dirs).
Proof.
  revert acc. induction dirs as [|d dirs IH]; intros acc; simpl.
  - now rewrite app_nil_r.
  - rewrite IH, filter_cons.
    destruct (is_repository Join fs parent d) eqn:Hd.
    + destruct (decide (true = true)); [|congruence].
      rewrite fmap_cons, <- app_assoc. reflexivity.
    + destruct (decide (false = true)); [discriminate|reflexivity].
Qed.

Lemma is_repository_spec (fs : FS) (parent : string) (d : DirEntry) :
  is_repository Join fs parent d = true <->
  IsDir d = true /\
  exists st, Stat fs (Join [parent; Name d; ".git"]) = inl st /\
             fi_IsDir st = true.
Proof.
  unfold is_repository. destruct (IsDir d); [|split; [discriminate|intros [? _]; discriminate]].
  destruct (Stat fs (Join [parent; Name d; ".git"])) as [st|err].
  - split; [intros H; split; [reflexivity|eauto]|].
    intros [_ (st' & Hst & Hd)]. congruence.
  - split; [discriminate|]. intros [_ (st' & Hst & _)]. discriminate.
Qed.

Lemma findProjects_collected (fs : FS) :
  findProjects Dir Join fs
  = sort_Slice name_less
      (descriptor Join (parentDir_of Dir fs)
       <$> filter (fun d => is_repository Join fs (parentDir_of Dir fs) d = true)
             (ReadDir fs (parentDir_of Dir fs)).1).
Proof. unfold findProjects, parentDir_of. now rewrite collect_descriptors. Qed.

(** The model of [sort.Slice] does not matter: every sorted arrangement
    of the collected descriptors is the slice [findProjects] returns. *)
Lemma findProjects_any_sort (fs : FS) (l : list project) :
  l ≡ₚ descriptor Join (parentDir_of Dir fs)
       <$> filter (fun d => is_repository Join fs (parentDir_of Dir fs) d = true)
             (ReadDir fs (parentDir_of Dir fs)).1 ->
  StronglySorted name_le l ->
  l = findProjects Dir Join fs.
Proof.
  intros Hp Hs. rewrite findProjects_collected.
  apply sorted_by_name_unique.
  - intros a b Ha Hb Hn. rewrite Hp in Ha, Hb.
    apply list_elem_of_fmap in Ha as (da & -> & _).
    apply list_elem_of_fmap in Hb as (db & -> & _).
    unfold descriptor in *. simpl in Hn. now rewrite Hn.
  - rewrite Hp. symmetry. apply sort_Slice_perm.
  - exact Hs.
  - apply sort_Slice_sorted.
Qed.

(** ** C9 *)

(** C9: of the entries of the parent directory, [findProjects] returns
    one descriptor for each entry that is a directory and has a
    directory [.git] directly inside it, and none for any other entry:
    with K such entries it returns exactly K descriptors; and the
    descriptors are in ascending order of name under byte-wise string
    comparison. *)
Theorem findProjects_exactly_the_repositories_sorted (fs : FS) :
  let parent := parentDir_of Dir fs in
  let entries := (ReadDir fs parent).1 in
  let qualifying := filter (fun d => is_repository Join fs parent d = true) entries in
  (forall d, d ∈ qualifying <->
     d ∈ entries /\ IsDir d = true /\
     exists st, Stat fs (Join [parent; Name d; ".git"]) = inl st /\
                fi_IsDir st = true) /\
  findProjects Dir Join fs
    ≡ₚ (fun d => {| name := Name d; path := Join [parent; Name d] |}) <$> qualifying /\
  length (findProjects Dir Join fs) = length qualifying /\
  StronglySorted name_le (findProjects Dir Join fs).
Proof.
  intros parent entries qualifying.
  rewrite findProjects_collected. fold parent entries qualifying.
  split; [|split; [|split]].
  - intros d. unfold qualifying. rewrite list_elem_of_filter, is_repository_spec.
    tauto.
  - apply sort_Slice_perm.
  - rewrite (sort_Slice_perm _). now rewrite length_fmap.
  - apply sort_Slice_sorted.
Qed.

(** ** C8 *)


End LocatorFacts.



(** Discovery on the mixed directory: the two repositories, by name. *)
Example findProjects_mixed :
  findProjects slash_dir slash_join fs_mixed
  = [ {| name := "alpha"; path := "/w/alpha" |};
      {| name := "zeta"; path := "/w/zeta" |} ].
Proof. vm_compute. reflexivity. Qed.

(** ** Toggle-all on a selection that is full in the map's own terms *)

Lemma mark_list_lookup (l : list Z) (s : gmap Z bool) (i : Z) :
  foldl (fun acc k => <[k := true]> acc) s l !! i
  = if decide (i ∈ l) then Some true else s !! i.
Proof.
  revert s. induction l as [|k l IH]; intros s; simpl.
  - destruct (decide (i ∈ [])) as [H|_]; [now apply elem_of_nil in H|reflexivity].
  - rewrite IH. destruct (decide (i ∈ l)) as [Hin|Hnin].
    + destruct (decide (i ∈ k :: l)) as [_|Hn]; [reflexivity|].
      exfalso. apply Hn. now apply list_elem_of_further.
    + rewrite lookup_insert. destruct (decide (k = i)) as [->|Hne].
      * destruct (decide (i ∈ i :: l)) as [_|Hn]; [reflexivity|].
        exfalso. apply Hn. apply list_elem_of_here.
      * destruct (decide (i ∈ k :: l)) as [Hin|_]; [|reflexivity].
        apply elem_of_cons in Hin as [?|?]; congruence.
Qed.

Lemma mark_all_lookup (ps : list project) (i : Z) :
  mark_all ps ∅ !! i
  = if decide (0 <= i < len ps)%Z then Some true else None.
Proof.
  unfold mark_all. rewrite mark_list_lookup, lookup_empty.
  destruct (decide (i ∈ seqZ 0 (len ps))) as [Hin|Hnin];
    rewrite elem_of_seqZ in *;
    destruct (decide (0 <= i < len ps)%Z); try reflexivity; lia.
Qed.

Lemma mark_list_size (l : list Z) (s : gmap Z bool) :
  NoDup l -> (forall k, k ∈ l -> s !! k = None) ->
  size (foldl (fun acc k => <[k := true]> acc) s l) = size s + length l.
Proof.
  revert s. induction l as [|k l IH]; intros s Hnd Hfresh; simpl; [lia|].
  apply NoDup_cons in Hnd as [Hk Hnd].
  rewrite IH; [|assumption|].
  - rewrite map_size_insert_None; [lia|]. apply Hfresh, list_elem_of_here.
  - intros k' Hk'. rewrite lookup_insert_ne; [|congruence].
    apply Hfresh. now apply list_elem_of_further.
Qed.

Lemma mark_all_size (ps : list project) : maplen (mark_all ps ∅) = len ps.
Proof.
  unfold maplen, mark_all. rewrite mark_list_size.
  - rewrite map_size_empty, length_seqZ. unfold len. lia.
  - apply NoDup_seqZ.
  - intros k _. apply lookup_empty.
Qed.

(** X26: from the selection holding exactly one [true] entry per
    repository, toggle-all empties the map, and toggle-all once more
    brings the same selection back. *)
Lemma toggle_all_twice_from_full (m : model) :
  cur_mode m = modeSelectProjects ->
  selected m = mark_all (projects m) ∅ ->
  selected (press m ["a"]) = ∅ /\
  selected (press m ["a"; "a"]) = mark_all (projects m) ∅.
Proof.
  intros Hmode Hsel.
  assert (H1 : (Update m (KeyMsg "a")).1 = with_selected ∅ m).
  { unfold Update. rewrite Hmode. unfold updateProjectSelect. simpl.
    rewrite Hsel, mark_all_size.
    rewrite bool_decide_eq_true_2 by reflexivity. reflexivity. }
  change (press m ["a"]) with (Update m (KeyMsg "a")).1.
  change (press m ["a"; "a"])
    with (Update (Update m (KeyMsg "a")).1 (KeyMsg "a")).1.
  rewrite H1. split; [reflexivity|].
  unfold Update. simpl. rewrite Hmode. unfold updateProjectSelect. simpl.
  destruct (bool_decide (maplen ∅ = len (projects m))) eqn:Hb; simpl.
  - apply bool_decide_eq_true_1 in Hb. symmetry. apply maplen_zero.
    rewrite mark_all_size. rewrite <- Hb. reflexivity.
  - reflexivity.
Qed.

(** ** The indices in the selection are indices of projects *)

Lemma in_range_index (m : model) (id : Z) :
  in_range m -> selected m !! id = Some true -> is_Some (index (projects m) id).
Proof.
  intros [Hk _] Hid. destruct (Hk id) as [H0 Hlt]; [rewrite Hid; eauto|].
  unfold index. destruct (decide (0 <= id)%Z); [|lia].
  apply lookup_lt_is_Some. unfold len in Hlt. lia.
Qed.

Ltac range_step :=
  match goal with
  | |- context [decide ?P] => destruct (decide P)
  | |- context [bool_decide ?P] => destruct (bool_decide P)
  | H : is_Some (∅ !! _) |- _ =>
      rewrite lookup_empty in H; destruct H; discriminate
  | H : is_Some (<[_ := _]> _ !! _) |- _ =>
      rewrite lookup_insert in H
  | H : context [mark_all _ ∅ !! _] |- _ => rewrite mark_all_lookup in H
  | H : is_Some None |- _ => destruct H; discriminate
  | H : context [decide ?P] |- _ => destruct (decide P)
  end.

Lemma Update_projects (m : model) (t : teaMsg) :
  projects (Update m t).1 = projects m.
Proof.
  destruct t as [key| |]; try reflexivity.
  unfold Update. destruct (cur_mode m); try reflexivity;
    unfold updateActionSelect, updateProjectSelect, updateBranchInput;
    repeat range_step; reflexivity.
Qed.

Lemma Update_in_range (m : model) (t : teaMsg) :
  projects m <> [] -> in_range m -> in_range (Update m t).1.
Proof.
  intros Hne [Hk Hc].
  assert (Hlen : (0 < len (projects m))%Z).
  { unfold len. destruct (projects m); [contradiction|simpl; lia]. }
  destruct t as [key| |]; try (split; assumption).
  unfold Update. destruct (cur_mode m) eqn:Hmode; try (split; assumption).
  - (* modeSelectAction *)
    unfold updateActionSelect.
    repeat range_step; (split; simpl; [|try (intros _; lia); try (rewrite Hmode; congruence)]);
      try assumption.
    intros k Hsome. unfold mark_all in Hsome.
    rewrite mark_list_lookup in Hsome.
    destruct (decide (k ∈ seqZ 0 (len (projects m)))) as [Hin|_].
    + apply elem_of_seqZ in Hin. lia.
    + now apply Hk.
  - (* modeSelectProjects *)
    assert (Hcur : (0 <= cursor m < len (projects m))%Z) by (apply Hc; congruence).
    unfold updateProjectSelect.
    repeat range_step;
      (split; simpl; [intros k Hsome|intros Hm; try lia; try congruence]);
      repeat range_step; subst; try (now apply Hk); try lia; try congruence.
  - (* modeEnterBranch *)
    assert (Hcur : (0 <= cursor m < len (projects m))%Z) by (apply Hc; congruence).
    unfold updateBranchInput.
    repeat range_step; (split; simpl; [assumption|intros _; assumption]).
  - (* modeProcessing *)
    split; simpl; [assumption|]. intros _. apply Hc. discriminate.
Qed.

(** Whatever keys are pressed from the initial model of a non-empty
    project list, the indexing in the batch loop stays within bounds. *)
Lemma press_in_range (ps : list project) (keys : list string) :
  ps <> [] -> in_range (press (initialModel ps) keys).
Proof.
  intros Hne.
  assert (Hgen : forall m, projects m <> [] -> in_range m ->
                   in_range (press m keys) /\ projects (press m keys) = projects m).
  { induction keys as [|k keys IH]; intros m Hm Hinv; [split; [assumption|reflexivity]|].
    change (press m (k :: keys)) with (press (Update m (KeyMsg k)).1 keys).
    destruct (IH (Update m (KeyMsg k)).1) as [Hi Hp].
    - now rewrite Update_projects.
    - now apply Update_in_range.
    - split; [assumption|]. now rewrite Hp, Update_projects. }
  apply Hgen; [assumption|].
  split; simpl.
  - intros k Hk. rewrite lookup_empty in Hk. destruct Hk; discriminate.
  - congruence.
Qed.


(** * Further properties of the program *)

(** ** Key presses: general facts *)

Lemma press_cons (m : model) (k : string) (keys : list string) :
  press m (k :: keys) = press (Update m (KeyMsg k)).1 keys.
Proof. reflexivity. Qed.

Lemma press_app (m : model) (ks1 ks2 : list string) :
  press m (ks1 ++ ks2) = press (press m ks1) ks2.
Proof. unfold press. apply foldl_app. Qed.

Lemma press_preserves (P : model -> Prop) :
  (forall m k, P m -> P (Update m (KeyMsg k)).1) ->
  forall keys m, P m -> P (press m keys).
Proof.
  intros Hstep keys. induction keys as [|k keys IH]; intros m Hm; [exact Hm|].
  rewrite press_cons. apply IH, Hstep, Hm.
Qed.

Lemma press_projects (m : model) (keys : list string) :
  projects (press m keys) = projects m.
Proof.
  revert m. induction keys as [|k keys IH]; intros m; [reflexivity|].
  rewrite press_cons, IH. apply Update_projects.
Qed.

Ltac key_cases :=
  repeat match goal with
  | |- context [decide ?P] => destruct (decide P)
  | |- context [bool_decide ?P] => destruct (bool_decide P)
  end.

Ltac update_cases m :=
  unfold Update; destruct (cur_mode m) eqn:?;
  unfold updateActionSelect, updateProjectSelect, updateBranchInput;
  key_cases; simpl.

(** X1: from the initial model of a non-empty project list, whatever
    keys are pressed, every key of the selection map is the index of a
    project, the cursor is such an index on every screen but the action
    screen, and the project list is the one the program started with. *)
Theorem reachable_selection_within_projects (ps : list project) (keys : list string) :
  ps <> [] ->
  let m := press (initialModel ps) keys in
  projects m = ps /\
  (forall k, is_Some (selected m !! k) -> (0 <= k < len ps)%Z) /\
  (cur_mode m <> modeSelectAction -> (0 <= cursor m < len ps)%Z).
Proof.
  intros Hne m.
  assert (Hp : projects m = ps) by apply press_projects.
  destruct (press_in_range ps keys Hne) as [Hk Hc]. fold m in Hk, Hc.
  rewrite Hp in Hk, Hc. auto.
Qed.

(** The statement for [repo_a], [repo_b] and a handful of keys. *)
Lemma reachable_selection_within_projects_witness :
  let m := press (initialModel [repo_a; repo_b]) ["enter"; "down"; " "] in
  projects m = [repo_a; repo_b] /\
  (forall k, is_Some (selected m !! k) -> (0 <= k < len [repo_a; repo_b])%Z) /\
  (cur_mode m <> modeSelectAction -> (0 <= cursor m < len [repo_a; repo_b])%Z).
Proof.
  apply (reachable_selection_within_projects [repo_a; repo_b] ["enter"; "down"; " "]).
  discriminate.
Defined.

(** X2: on the action screen the cursor is 0 or 1, and the recorded
    action is always 0 or 1, whatever keys are pressed. *)
Theorem reachable_action_is_0_or_1 (ps : list project) (keys : list string) :
  let m := press (initialModel ps) keys in
  (0 <= action m <= 1)%Z /\
  (cur_mode m = modeSelectAction -> (0 <= cursor m <= 1)%Z).
Proof.
  apply (press_preserves
           (fun m => (0 <= action m <= 1)%Z /\
                     (cur_mode m = modeSelectAction -> (0 <= cursor m <= 1)%Z))).
  - intros m k [Ha Hc]. update_cases m;
      (split; [try lia; try (apply Hc; assumption)
              |intros Hm; try discriminate; try lia; try (apply Hc; assumption)]).
    all: try congruence; try (specialize (Hc eq_refl); lia).
  - simpl. split; [lia|]. intros _. lia.
Qed.

(** X3: no sequence of keys brings the model into [modeProcessing], and
    the [processing] flag is never set. *)
Theorem reachable_never_processing (ps : list project) (keys : list string) :
  let m := press (initialModel ps) keys in
  cur_mode m <> modeProcessing /\ processing m = false.
Proof.
  apply (press_preserves
           (fun m => cur_mode m <> modeProcessing /\ processing m = false)).
  - intros m k [Hm Hp]. update_cases m;
      (split; [try discriminate; try congruence | assumption]).
  - simpl. split; [discriminate|reflexivity].
Qed.

(** X4: [Update] never clears the error text.  After any message the
    text is what it was or one of the two messages [Update] sets, so a
    text that is not empty stays not empty. *)
Theorem Update_never_clears_error (m : model) (t : teaMsg) :
  (error_text (Update m t).1 = error_text m \/
   error_text (Update m t).1 = "No projects selected" \/
   error_text (Update m t).1 = "Branch name cannot be empty") /\
  (error_text m <> "" -> error_text (Update m t).1 <> "").
Proof.
  assert (H : error_text (Update m t).1 = error_text m \/
              error_text (Update m t).1 = "No projects selected" \/
              error_text (Update m t).1 = "Branch name cannot be empty").
  { destruct t as [key| |]; [|now left|now left].
    update_cases m; auto. }
  split; [exact H|].
  intros Hne. destruct H as [-> | [-> | ->]]; [assumption|discriminate|discriminate].
Qed.

(** ** The action screen and the selection screen *)

(** X5: confirming on the action screen records the cursor as the
    action, moves to the selection screen with the cursor on the first
    line, marks every project index as selected, leaves every other key
    of the map as it was, and returns no command. *)
Theorem action_enter_selects_all (m : model) :
  cur_mode m = modeSelectAction ->
  let m' := (Update m (KeyMsg "enter")).1 in
  cur_mode m' = modeSelectProjects /\ cursor m' = 0%Z /\
  action m' = cursor m /\
  (forall i, (0 <= i < len (projects m))%Z -> selected m' !! i = Some true) /\
  (forall i, ~ (0 <= i < len (projects m))%Z -> selected m' !! i = selected m !! i) /\
  (Update m (KeyMsg "enter")).2 = None.
Proof.
  intros Hmode m'. subst m'. unfold Update. rewrite Hmode.
  unfold updateActionSelect. simpl.
  split; [reflexivity|]. split; [reflexivity|]. split; [reflexivity|].
  split; [|split; [|reflexivity]]; intros i Hi; unfold mark_all;
    rewrite mark_list_lookup;
    destruct (decide (i ∈ seqZ 0 (len (projects m)))) as [Hin|Hnin];
    try reflexivity; rewrite elem_of_seqZ in *; lia.
Qed.

(** The statement at the initial model of [repo_a] and [repo_b]. *)
Lemma action_enter_selects_all_witness :
  let m := initialModel [repo_a; repo_b] in
  let m' := (Update m (KeyMsg "enter")).1 in
  cur_mode m' = modeSelectProjects /\ cursor m' = 0%Z /\
  action m' = cursor m /\
  (forall i, (0 <= i < len (projects m))%Z -> selected m' !! i = Some true) /\
  (forall i, ~ (0 <= i < len (projects m))%Z -> selected m' !! i = selected m !! i) /\
  (Update m (KeyMsg "enter")).2 = None.
Proof.
  apply (action_enter_selects_all (initialModel [repo_a; repo_b])).
  reflexivity.
Defined.

(** X6: going back from the selection screen and confirming the action
    screen again selects every project anew and always lands on action
    0, the plain switch to main, whatever action had been chosen before:
    going back puts the cursor on the first action. *)
Theorem back_and_confirm_resets_action (m : model) :
  cur_mode m = modeSelectProjects ->
  let m' := press m ["esc"; "enter"] in
  cur_mode m' = modeSelectProjects /\ action m' = 0%Z /\ cursor m' = 0%Z /\
  selected m' = mark_all (projects m) ∅.
Proof.
  intros Hmode m'. subst m'. rewrite !press_cons.
  assert (H1 : (Update m (KeyMsg "esc")).1
               = with_selected ∅ (with_cursor 0 (with_mode modeSelectAction m))).
  { unfold Update. rewrite Hmode. reflexivity. }
  rewrite H1. repeat split; reflexivity.
Qed.

(** The statement at a selection screen reached with the create-branch
    action. *)
Lemma back_and_confirm_resets_action_witness :
  let m' := press two_repos_branch ["esc"; "enter"] in
  action two_repos_branch = 1%Z /\
  cur_mode m' = modeSelectProjects /\ action m' = 0%Z /\ cursor m' = 0%Z /\
  selected m' = mark_all (projects two_repos_branch) ∅.
Proof.
  split; [reflexivity|].
  apply (back_and_confirm_resets_action two_repos_branch). reflexivity.
Defined.

(** X7: the space key flips what the index under the cursor reads and
    leaves every other key of the map alone; the key under the cursor is
    in the map afterwards even when it reads [false]; and pressing space
    twice restores what every index reads. *)
Theorem space_toggles_cursor_entry (m : model) :
  cur_mode m = modeSelectProjects ->
  let m1 := (Update m (KeyMsg " ")).1 in
  sel_get (selected m1) (cursor m) = negb (sel_get (selected m) (cursor m)) /\
  is_Some (selected m1 !! cursor m) /\
  (forall i, i <> cursor m -> selected m1 !! i = selected m !! i) /\
  (forall i, sel_get (selected (press m [" "; " "])) i = sel_get (selected m) i).
Proof.
  intros Hmode m1.
  assert (H1 : (Update m (KeyMsg " ")).1
               = with_selected
                   (<[cursor m := negb (sel_get (selected m) (cursor m))]> (selected m)) m).
  { unfold Update. rewrite Hmode. reflexivity. }
  subst m1. rewrite !press_cons, H1. simpl.
  split; [unfold sel_get at 1; now rewrite lookup_insert_eq|].
  split; [rewrite lookup_insert_eq; eauto|].
  split; [intros i Hi; now rewrite lookup_insert_ne|].
  intros i. unfold Update. simpl. rewrite Hmode.
  unfold updateProjectSelect. simpl.
  unfold sel_get at 1. rewrite lookup_insert.
  destruct (decide (cursor m = i)) as [<-|Hne]; simpl.
  - unfold sel_get at 1. rewrite lookup_insert_eq. simpl. apply negb_involutive.
  - rewrite lookup_insert_ne by assumption. reflexivity.
Qed.

(** The statement at the selection screen of [repo_a] and [repo_b]. *)
Lemma space_toggles_cursor_entry_witness :
  let m1 := (Update two_repos (KeyMsg " ")).1 in
  sel_get (selected m1) (cursor two_repos)
    = negb (sel_get (selected two_repos) (cursor two_repos)) /\
  is_Some (selected m1 !! cursor two_repos) /\
  (forall i, i <> cursor two_repos -> selected m1 !! i = selected two_repos !! i) /\
  (forall i, sel_get (selected (press two_repos [" "; " "])) i
             = sel_get (selected two_repos) i).
Proof. apply (space_toggles_cursor_entry two_repos). reflexivity. Defined.

(** X8: [Update] returns [tea.Quit] exactly for the keys [q] and
    [ctrl+c] pressed on one of the three interactive screens. *)
Theorem quit_only_on_q_or_ctrl_c (m : model) (t : teaMsg) :
  (Update m t).2 = Some Quit <->
  cur_mode m <> modeProcessing /\ (t = KeyMsg "q" \/ t = KeyMsg "ctrl+c").
Proof.
  split.
  - destruct t as [k| |]; try discriminate.
    update_cases m; intros H; try discriminate;
      (split; [discriminate|]);
      match goal with Hk : _ \/ _ |- _ => destruct Hk; subst; auto end.
  - intros [Hm [-> | ->]]; unfold Update;
      destruct (cur_mode m); try contradiction; reflexivity.
Qed.

(** X9: [Update] returns a batch command exactly on the enter key, in
    two situations: on the selection screen with a non-empty selection
    map and an action other than 1, with the empty branch name; or on
    the branch-name screen with a non-empty name, with that name.  The
    tick is always of 100 milliseconds, and the model returned together
    with a batch command is the model as it was. *)
Theorem batch_started_exactly_when (m : model) (t : teaMsg) (br : string) :
  ((exists ms captured, (Update m t).2 = Some (Tick ms captured br)) <->
   t = KeyMsg "enter" /\
   ((cur_mode m = modeSelectProjects /\ selected m <> ∅ /\
     action m <> 1%Z /\ br = "")
    \/
    (cur_mode m = modeEnterBranch /\ branchName m <> "" /\ br = branchName m))) /\
  (forall ms captured, (Update m t).2 = Some (Tick ms captured br) ->
     ms = 100%Z /\ (Update m t).1 = m).
Proof.
  split; [split|].
  - intros (ms & captured & H). revert H.
    destruct t as [k| |]; try discriminate.
    update_cases m; intros H; try discriminate;
      unfold processProjects in H; injection H as <- <- <-; subst k;
      (split; [reflexivity|]).
    + left. split; [reflexivity|]. split; [|auto].
      intros Hs. apply maplen_zero in Hs. contradiction.
    + right. auto.
  - intros (-> & [(Hm & Hs & Ha & ->) | (Hm & Hb & ->)]);
      exists 100%Z, m; unfold Update; rewrite Hm.
    + unfold updateProjectSelect. simpl.
      destruct (decide (maplen (selected m) = 0%Z)) as [Hz|_];
        [apply maplen_zero in Hz; contradiction|].
      destruct (decide (action m = 1%Z)); [contradiction|reflexivity].
    + unfold updateBranchInput. simpl.
      destruct (decide (branchName m = "")); [contradiction|reflexivity].
  - intros ms captured. destruct t as [k| |]; try discriminate.
    update_cases m; intros H; try discriminate;
      unfold processProjects in H; injection H as <- <- <-; auto.
Qed.

(** ** The branch-name screen *)

Lemma string_append_cons (x : Ascii.ascii) (a b : string) :
  String x a +:+ b = String x (a +:+ b).
Proof. reflexivity. Qed.

Lemma bytes_append (a b : string) : bytes (a +:+ b) = bytes a ++ bytes b.
Proof.
  induction a as [|c a IH]; [reflexivity|].
  rewrite string_append_cons. unfold bytes in *. simpl. now rewrite IH.
Qed.

Lemma substring_0_0 (s : string) : String.substring 0 0 s = "".
Proof. destruct s; reflexivity. Qed.

Lemma bytes_substring_0 (n : nat) (s : string) :
  bytes (String.substring 0 n s) = take n (bytes s).
Proof.
  revert n. induction s as [|c s IH]; intros [|n]; simpl; try reflexivity.
  now rewrite IH.
Qed.

Lemma string_length_append (a b : string) :
  String.length (a +:+ b) = String.length a + String.length b.
Proof.
  induction a as [|c a IH]; [reflexivity|].
  rewrite string_append_cons. simpl. now rewrite IH.
Qed.

Lemma substring_append_l (a b : string) :
  String.substring 0 (String.length a) (a +:+ b) = a.
Proof.
  induction a as [|c a IH]; [apply substring_0_0|].
  rewrite string_append_cons. simpl. now rewrite IH.
Qed.

Lemma string_append_assoc (a b c : string) : (a +:+ b) +:+ c = a +:+ (b +:+ c).
Proof.
  induction a as [|x a IH]; [reflexivity|].
  rewrite !string_append_cons. now rewrite IH.
Qed.

Lemma string_append_nil_r (a : string) : a +:+ "" = a.
Proof.
  induction a as [|x a IH]; [reflexivity|].
  rewrite string_append_cons. now rewrite IH.
Qed.

Lemma name_key_bytes (k : string) : name_key k -> byte_q ∉ bytes k.
Proof.
  intros [Hlen Hq]. destruct k as [|c [|c' k]]; simpl in Hlen; try discriminate.
  simpl. intros Hin. apply list_elem_of_singleton in Hin.
  apply Hq. rewrite <- Hin. reflexivity.
Qed.

Lemma name_key_not_special (k : string) :
  name_key k ->
  ~ (k = "q" \/ k = "ctrl+c") /\ k <> "esc" /\ k <> "enter" /\ k <> "backspace".
Proof.
  intros [Hlen Hq].
  repeat split; try (intros [H|H]; [contradiction|]); try intros H;
    subst k; simpl in Hlen; discriminate.
Qed.

(** What the branch-name screen does with a key it takes as a character. *)
Lemma updateBranchInput_name_key (m : model) (k : string) :
  name_key k ->
  updateBranchInput m k = (with_branchName (branchName m +:+ k) m, None).
Proof.
  intros Hk. destruct (name_key_not_special k Hk) as (H1 & H2 & H3 & H4).
  destruct Hk as [Hlen _]. unfold updateBranchInput.
  destruct (decide (k = "q" \/ k = "ctrl+c")); [contradiction|].
  destruct (decide (k = "esc")); [contradiction|].
  destruct (decide (k = "enter")); [contradiction|].
  destruct (decide (k = "backspace")); [contradiction|].
  destruct (decide (String.length k = 1)); [reflexivity|contradiction].
Qed.

(** X10: the branch name never contains the byte [q]: on the
    branch-name screen that key quits instead of being typed. *)
Theorem branch_name_never_has_q (ps : list project) (keys : list string) :
  byte_q ∉ bytes (branchName (press (initialModel ps) keys)).
Proof.
  apply (press_preserves (fun m => byte_q ∉ bytes (branchName m))).
  - intros m k Hm. update_cases m; try assumption.
    + simpl. apply not_elem_of_nil.
    + rewrite bytes_substring_0. intros Hin. apply Hm.
      exact (subseteq_take _ _ _ Hin).
    + rewrite bytes_append. intros Hin. apply elem_of_app in Hin as [Hin|Hin];
        [contradiction|].
      revert Hin. apply name_key_bytes. split; [assumption|]. tauto.
  - simpl. apply not_elem_of_nil.
Qed.

(** X11: on the branch-name screen, typing a character and pressing
    backspace gives the name back as it was. *)
Theorem type_then_backspace (m : model) (k : string) :
  cur_mode m = modeEnterBranch -> name_key k ->
  branchName (press m [k; "backspace"]) = branchName m /\
  cur_mode (press m [k; "backspace"]) = modeEnterBranch.
Proof.
  intros Hmode Hk. rewrite !press_cons.
  assert (H1 : (Update m (KeyMsg k)).1 = with_branchName (branchName m +:+ k) m).
  { unfold Update. rewrite Hmode. now rewrite updateBranchInput_name_key. }
  rewrite H1. unfold Update, press. simpl. rewrite Hmode.
  unfold updateBranchInput. simpl.
  destruct Hk as [Hlen _].
  destruct (decide (0 < String.length (branchName m +:+ k))) as [_|Hz].
  - simpl. split; [|assumption].
    rewrite string_length_append, Hlen.
    replace (String.length (branchName m) + 1 - 1) with (String.length (branchName m)) by lia.
    apply substring_append_l.
  - rewrite string_length_append, Hlen in Hz. lia.
Qed.

(** The statement at the branch-name screen of [repo_a] with the key
    [x]. *)
Lemma type_then_backspace_witness :
  branchName (press naming_screen ["x"; "backspace"]) = branchName naming_screen /\
  cur_mode (press naming_screen ["x"; "backspace"]) = modeEnterBranch.
Proof.
  apply (type_then_backspace naming_screen "x").
  - reflexivity.
  - split; [reflexivity|discriminate].
Defined.

(** X12: on the branch-name screen, typing a sequence of character keys
    appends them to the name in order and changes nothing else. *)
Theorem typing_appends (m : model) (keys : list string) :
  cur_mode m = modeEnterBranch -> Forall name_key keys ->
  press m keys = with_branchName (branchName m +:+ typed keys) m.
Proof.
  revert m. induction keys as [|k keys IH]; intros m Hmode Hall.
  - simpl. rewrite string_append_nil_r. now destruct m.
  - apply Forall_cons in Hall as [Hk Hall]. rewrite press_cons.
    assert (H1 : (Update m (KeyMsg k)).1 = with_branchName (branchName m +:+ k) m).
    { unfold Update. rewrite Hmode. now rewrite updateBranchInput_name_key. }
    rewrite H1, IH; [|assumption|assumption].
    simpl. now rewrite string_append_assoc.
Qed.

(** The statement for the keys [f], [i], [x] on the branch-name screen
    of [repo_a]. *)
Lemma typing_appends_witness :
  press naming_screen ["f"; "i"; "x"]
  = with_branchName (branchName naming_screen +:+ typed ["f"; "i"; "x"]) naming_screen.
Proof.
  apply (typing_appends naming_screen ["f"; "i"; "x"]).
  - reflexivity.
  - repeat constructor; discriminate.
Defined.

(** X13: with the create-branch action and a non-empty selection map,
    confirming the selection and going back returns to the selection
    screen with the selection, the cursor and the action as they were;
    only the branch name is emptied. *)
Theorem confirm_then_back (m : model) :
  cur_mode m = modeSelectProjects -> selected m <> ∅ -> action m = 1%Z ->
  press m ["enter"; "esc"] = with_branchName "" m.
Proof.
  intros Hmode Hsel Hact. rewrite !press_cons.
  assert (H1 : (Update m (KeyMsg "enter")).1
               = with_branchName "" (with_mode modeEnterBranch m)).
  { unfold Update. rewrite Hmode. unfold updateProjectSelect. simpl.
    destruct (decide (maplen (selected m) = 0%Z)) as [Hz|_];
      [apply maplen_zero in Hz; contradiction|].
    destruct (decide (action m = 1%Z)); [reflexivity|contradiction]. }
  rewrite H1. unfold press, Update. simpl.
  destruct m; simpl in *; subst; reflexivity.
Qed.

(** The statement at the selection screen of [repo_a] and [repo_b] for
    the create-branch action. *)
Lemma confirm_then_back_witness :
  press two_repos_branch ["enter"; "esc"] = with_branchName "" two_repos_branch.
Proof.
  apply (confirm_then_back two_repos_branch).
  - reflexivity.
  - intros H. apply (f_equal (fun s : gmap Z bool => s !! 0%Z)) in H.
    vm_compute in H. discriminate.
  - reflexivity.
Defined.

(** ** Witnesses for the guard of confirm and for toggle-all *)

(** [confirm_empty_map_sets_error] after toggle-all has emptied the
    selection of [repo_a] and [repo_b]. *)
Lemma confirm_empty_map_sets_error_witness :
  let m := press two_repos ["a"] in
  Update m (KeyMsg "enter") = (with_error "No projects selected" m, None).
Proof.
  apply (confirm_empty_map_sets_error (press two_repos ["a"])).
  - reflexivity.
  - vm_compute. reflexivity.
Defined.

(** [toggle_all_twice_from_full] at the selection screen of [repo_a] and
    [repo_b]. *)
Lemma toggle_all_twice_from_full_witness :
  selected (press two_repos ["a"]) = ∅ /\
  selected (press two_repos ["a"; "a"]) = mark_all (projects two_repos) ∅.
Proof.
  apply (toggle_all_twice_from_full two_repos); reflexivity.
Defined.

(** ** The command sequence: what is always run *)

(** X14: whatever the commands answer, [switchBranch] runs stash and
    then fetch first, so at least two commands, never more than the
    five or six of the plan, and every one of them is a [git -C] command
    on the given path. *)
Theorem switchBranch_always_stashes_and_fetches {W : Type}
    (exec : list string -> W -> RunResult * W)
    (projectPath branchName : string) (e : Env W) :
  let evs := new_events e (switchBranch exec projectPath branchName e).2 in
  take 2 evs.*1 = [git projectPath ["stash"]; git projectPath ["fetch"; "origin"]] /\
  2 <= length evs <= (if decide (branchName = "") then 5 else 6) /\
  Forall (on_repo projectPath) evs.*1.
Proof.
  intros evs. subst evs. rewrite switchBranch_run_steps.
  destruct (run_steps_cases exec (plan projectPath branchName) e)
    as (evs & Htr & Hpre & _ & Hend).
  rewrite (new_events_app _ _ _ Htr).
  assert (Hlenp : length (plan projectPath branchName)
                  = if decide (branchName = "") then 5 else 6).
  { unfold plan. destruct (decide (branchName = "")); reflexivity. }
  assert (Hlen : 2 <= length evs <= length (plan projectPath branchName)).
  { split.
    - destruct Hend as [(_ & Hc & _) | (i & s & err & _ & Hl & Hf & _)].
      + apply (f_equal length) in Hc. unfold Event, Step in *.
        rewrite !length_fmap, Hlenp in Hc.
        destruct (decide (branchName = "")); lia.
      + destruct Hf as (argv & r & Hst & _ & _).
        destruct i as [|i]; [|lia]. simpl in Hst. discriminate.
    - apply prefix_length in Hpre. unfold Event, Step in *.
      now rewrite !length_fmap in Hpre. }
  destruct Hpre as [k Hk].
  split; [|split].
  - assert (H2 : take 2 (plan projectPath branchName).*1
                 = [git projectPath ["stash"]; git projectPath ["fetch"; "origin"]])
      by reflexivity.
    rewrite Hk, take_app_le in H2; [exact H2|].
    unfold Event, Step in *. rewrite length_fmap. lia.
  - rewrite <- Hlenp. exact Hlen.
  - apply Forall_forall. intros argv Hin.
    assert (Hin' : argv ∈ (plan projectPath branchName).*1).
    { rewrite Hk. apply elem_of_app. now left. }
    clear -Hin'. unfold plan in Hin'.
    destruct (decide (branchName = "")); simpl in Hin';
      repeat (apply elem_of_cons in Hin' as [->|Hin']; [eexists; reflexivity|]);
      now apply elem_of_nil in Hin'.
Qed.

(** ** The batch: further properties *)

Lemma range_selected_none {W : Type} (exec : list string -> W -> RunResult * W)
    (ps : list project) (branch : string) (order : list (Z * bool)) (e : Env W) :
  (forall id, (id, true) ∉ order) ->
  range_selected exec ps branch order e
  = (Returned (mkMsg msgProcessComplete None), e).
Proof.
  induction order as [|[id b] rest IH]; intros Hnone; [reflexivity|].
  destruct b.
  - exfalso. apply (Hnone id), list_elem_of_here.
  - rewrite range_selected_skip. apply IH.
    intros id' Hin. apply (Hnone id'). now apply list_elem_of_further.
Qed.

(** X15: from the initial model of a non-empty project list, whatever
    keys were pressed, the batch loop does not panic on an index: it
    returns a message, and that message is [msgProcessComplete] or
    [msgError]. *)
Theorem reachable_batch_returns {W : Type}
    (exec : list string -> W -> RunResult * W)
    (ps : list project) (keys : list string) (branch : string)
    (order : list (Z * bool)) (e : Env W) :
  ps <> [] ->
  iteration_order (selected (press (initialModel ps) keys)) order ->
  exists a,
    (processProjects_callback exec (press (initialModel ps) keys) branch order e).1
      = Returned a /\
    (Type_ a = msgProcessComplete \/ Type_ a = msgError).
Proof.
  intros Hne Hord. unfold processProjects_callback.
  destruct (range_selected_cases exec
              (projects (press (initialModel ps) keys)) branch order e)
    as (evs & _ & Hcase).
  { intros id Hin. apply in_range_index; [now apply press_in_range|].
    now apply (iteration_order_selected _ _ _ Hord). }
  destruct Hcase as [(Hr & _)
    | (pre & idf & post & p & ep & ef & i & s & err & _ & _ & Hr & _)];
    rewrite Hr; eexists; (split; [reflexivity|]); simpl; auto.
Qed.

(** The statement for [repo_a] and [repo_b] after the enter key. *)
Lemma reachable_batch_returns_witness :
  exists a,
    (processProjects_callback (scripted fetch_a_fails)
       (press (initialModel [repo_a; repo_b]) ["enter"]) "" b_then_a start).1
      = Returned a /\
    (Type_ a = msgProcessComplete \/ Type_ a = msgError).
Proof.
  apply (reachable_batch_returns (scripted fetch_a_fails)
           [repo_a; repo_b] ["enter"] "" b_then_a start).
  - discriminate.
  - rewrite two_repos_reachable. exact b_then_a_order.
Defined.

(** X16: when no index of the selection reads [true], the batch runs no
    command at all and returns [msgProcessComplete]. *)
Theorem batch_with_nothing_ticked {W : Type}
    (exec : list string -> W -> RunResult * W)
    (m : model) (branch : string) (order : list (Z * bool)) (e : Env W) :
  iteration_order (selected m) order ->
  (forall id, sel_get (selected m) id = false) ->
  processProjects_callback exec m branch order e
  = (Returned (mkMsg msgProcessComplete None), e).
Proof.
  intros Hord Hnone. unfold processProjects_callback.
  apply range_selected_none. intros id Hin.
  apply (iteration_order_selected _ _ _ Hord) in Hin.
  specialize (Hnone id). unfold sel_get in Hnone. rewrite Hin in Hnone.
  discriminate.
Qed.

(** The statement for the only repository toggled off. *)
Lemma batch_with_nothing_ticked_witness :
  processProjects_callback (scripted fetch_a_fails) one_unticked ""
    [(0%Z, false)] start
  = (Returned (mkMsg msgProcessComplete None), start).
Proof.
  apply (batch_with_nothing_ticked (scripted fetch_a_fails) one_unticked ""
           [(0%Z, false)] start).
  - unfold iteration_order. vm_compute. reflexivity.
  - intros id.
    assert (Hs : selected one_unticked = <[0%Z := false]> ∅) by (vm_compute; reflexivity).
    rewrite Hs. unfold sel_get. rewrite lookup_insert.
    destruct (decide (0%Z = id)); [reflexivity|]. now rewrite lookup_empty.
Defined.

Lemma range_selected_targets {W : Type} (exec : list string -> W -> RunResult * W)
    (ps : list project) (branch : string) (order : list (Z * bool)) (e : Env W) :
  exists evs,
    trace (range_selected exec ps branch order e).2 = trace e ++ evs /\
    Forall (fun argv => exists id p,
              (id, true) ∈ order /\ index ps id = Some p /\
              on_repo (path p) argv) evs.*1.
Proof.
  revert e. induction order as [|[id b] rest IH]; intros e.
  - exists []. cbn [range_selected ret fst snd]. rewrite app_nil_r.
    split; [reflexivity|constructor].
  - assert (Hweak : forall evs : list Event,
      Forall (fun argv => exists id' p, (id', true) ∈ rest /\ index ps id' = Some p /\
                on_repo (path p) argv) evs.*1 ->
      Forall (fun argv => exists id' p, (id', true) ∈ (id, b) :: rest /\
                index ps id' = Some p /\ on_repo (path p) argv) evs.*1).
    { intros evs Hf. eapply Forall_impl; [exact Hf|].
      intros argv (id' & p & Hin & Hp & Hon).
      exists id', p. split; [now apply list_elem_of_further|auto]. }
    destruct b.
    + destruct (index ps id) as [p|] eqn:Hp.
      * destruct (run_steps_cases exec (plan (path p) branch) e)
          as (evs1 & Htr1 & Hpre1 & _ & Hend).
        rewrite <- switchBranch_run_steps in Htr1, Hend.
        assert (Hon1 : Forall (fun argv => exists id' q,
                   (id', true) ∈ (id, true) :: rest /\ index ps id' = Some q /\
                   on_repo (path q) argv) evs1.*1).
        { apply Forall_forall. intros argv Hin. exists id, p.
          split; [apply list_elem_of_here|]. split; [exact Hp|].
          apply (cmds_of_on_repo ps branch id); [exact Hp|].
          rewrite (cmds_of_index _ _ _ _ Hp).
          destruct Hpre1 as [k ->]. apply elem_of_app. now left. }
        destruct Hend as [(Hr & _) | (i & s & err & Hr & _)].
        -- rewrite (range_selected_next _ _ _ _ _ _ _ Hp Hr).
           destruct (IH (switchBranch exec (path p) branch e).2) as (evs & Htr & Hon).
           exists (evs1 ++ evs).
           split; [rewrite Htr, Htr1, <- app_assoc; reflexivity|].
           rewrite fmap_app. apply Forall_app. split; [exact Hon1|now apply Hweak].
        -- rewrite (range_selected_stop _ _ _ _ _ _ _ _ Hp Hr). cbn [fst snd].
           exists evs1. split; [exact Htr1|exact Hon1].
      * exists []. cbn [range_selected negb]. rewrite Hp.
        cbn [ret fst snd]. rewrite app_nil_r. split; [reflexivity|constructor].
    + rewrite range_selected_skip.
      destruct (IH e) as (evs & Htr & Hon). exists evs.
      split; [exact Htr|now apply Hweak].
Qed.

(** X17: the batch only ever adds to the trace, and every command it
    runs is a [git -C] command on the path of a project whose index
    reads [true] in the selection: a repository that is not selected is
    never touched. *)
Theorem batch_only_touches_selected {W : Type}
    (exec : list string -> W -> RunResult * W)
    (m : model) (branch : string) (order : list (Z * bool)) (e : Env W) :
  iteration_order (selected m) order ->
  let e' := (processProjects_callback exec m branch order e).2 in
  trace e' = trace e ++ new_events e e' /\
  Forall (fun argv => exists id p,
            selected m !! id = Some true /\ index (projects m) id = Some p /\
            on_repo (path p) argv) (new_events e e').*1.
Proof.
  intros Hord e'. subst e'. unfold processProjects_callback.
  destruct (range_selected_targets exec (projects m) branch order e)
    as (evs & Htr & Hon).
  rewrite (new_events_app _ _ _ Htr). split; [exact Htr|].
  eapply Forall_impl; [exact Hon|].
  intros argv (id & p & Hin & Hp & Hr). exists id, p.
  split; [now apply (iteration_order_selected _ _ _ Hord)|auto].
Qed.

(** The statement for [repo_a] and [repo_b] with the first toggled off. *)
Lemma batch_only_touches_selected_witness :
  let e' := (processProjects_callback (scripted all_succeed) first_unticked ""
               [(0%Z, false); (1%Z, true)] start).2 in
  trace e' = trace start ++ new_events start e' /\
  Forall (fun argv => exists id p,
            selected first_unticked !! id = Some true /\
            index (projects first_unticked) id = Some p /\
            on_repo (path p) argv) (new_events start e').*1.
Proof.
  apply (batch_only_touches_selected (scripted all_succeed) first_unticked ""
           [(0%Z, false); (1%Z, true)] start).
  unfold iteration_order.
  assert (Hl : map_to_list (selected first_unticked) = [(1%Z, true); (0%Z, false)])
    by (vm_compute; reflexivity).
  rewrite Hl. apply perm_swap.
Defined.

Lemma range_selected_all_ok {W : Type} (exec : list string -> W -> RunResult * W)
    (ps : list project) (branch : string) (order : list (Z * bool)) (e : Env W) :
  (forall id, (id, true) ∈ order ->
     exists p, index ps id = Some p /\ always_ok exec (path p) branch) ->
  exists evs,
    range_selected exec ps branch order e
    = (Returned (mkMsg msgProcessComplete None),
       (range_selected exec ps branch order e).2) /\
    trace (range_selected exec ps branch order e).2 = trace e ++ evs /\
    evs.*1 = concat (cmds_of ps branch <$> selected_ids order).
Proof.
  revert e. induction order as [|[id b] rest IH]; intros e Hok.
  - exists []. cbn [range_selected ret fst snd]. rewrite app_nil_r. auto.
  - assert (Hok' : forall id', (id', true) ∈ rest ->
              exists p, index ps id' = Some p /\ always_ok exec (path p) branch).
    { intros id' Hin. apply Hok. now apply list_elem_of_further. }
    destruct b.
    + destruct (Hok id) as (p & Hp & Hp_ok); [apply list_elem_of_here|].
      destruct (switchBranch_always_ok exec (path p) branch e Hp_ok)
        as (Hr & evs1 & Htr1 & Hc1).
      rewrite (range_selected_next _ _ _ _ _ _ _ Hp Hr).
      destruct (IH (switchBranch exec (path p) branch e).2 Hok')
        as (evs & Heq & Htr & Hc).
      exists (evs1 ++ evs). split; [exact Heq|].
      split; [rewrite Htr, Htr1, <- app_assoc; reflexivity|].
      rewrite fmap_app, Hc, Hc1, selected_ids_cons_true, fmap_cons, concat_cons.
      now rewrite (cmds_of_index _ _ _ _ Hp).
    + rewrite range_selected_skip, selected_ids_cons_false. now apply IH.
Qed.

(** X18: when no aborting step of any selected repository can fail, the
    batch returns [msgProcessComplete] whatever the iteration order, and
    the commands it ran are the complete plans of the selected
    repositories, one repository after the other in iteration order. *)
Theorem batch_completes_when_nothing_fails {W : Type}
    (exec : list string -> W -> RunResult * W)
    (m : model) (branch : string) (order : list (Z * bool)) (e : Env W) :
  iteration_order (selected m) order ->
  (forall id, selected m !! id = Some true ->
     exists p, index (projects m) id = Some p /\ always_ok exec (path p) branch) ->
  let res := processProjects_callback exec m branch order e in
  res.1 = Returned (mkMsg msgProcessComplete None) /\
  (new_events e res.2).*1
    = concat (cmds_of (projects m) branch <$> selected_ids order).
Proof.
  intros Hord Hok res. subst res. unfold processProjects_callback.
  destruct (range_selected_all_ok exec (projects m) branch order e)
    as (evs & Heq & Htr & Hc).
  { intros id Hin. apply Hok. now apply (iteration_order_selected _ _ _ Hord). }
  rewrite (new_events_app _ _ _ Htr). split; [now rewrite Heq|exact Hc].
Qed.

Lemma all_succeed_always_ok (p branch : string) :
  always_ok (scripted all_succeed) p branch.
Proof. intros w argv s _. reflexivity. Qed.

(** The statement for [repo_a] and [repo_b] with every command
    succeeding. *)
Lemma batch_completes_when_nothing_fails_witness :
  let res := processProjects_callback (scripted all_succeed) two_repos "x"
               a_then_b start in
  res.1 = Returned (mkMsg msgProcessComplete None) /\
  (new_events start res.2).*1
    = concat (cmds_of (projects two_repos) "x" <$> selected_ids a_then_b).
Proof.
  apply (batch_completes_when_nothing_fails (scripted all_succeed)
           two_repos "x" a_then_b start).
  - exact a_then_b_order.
  - intros id Hsel.
    destruct (two_repos_selected id Hsel) as [->| ->];
      eexists; (split; [reflexivity|apply all_succeed_always_ok]).
Defined.

(** X19: the default flow.  From the initial model of a non-empty
    project list, enter on the action screen and enter again on the
    selection screen return a batch command with the empty branch name
    and leave the model as it is; at that moment the selection holds
    exactly the indices of all projects, each reading [true], so in
    every iteration order of that map the ticked keys are all the
    project indices, each once. *)
Theorem enter_enter_starts_batch_with_all_selected (ps : list project) :
  ps <> [] ->
  let m := press (initialModel ps) ["enter"] in
  (Update m (KeyMsg "enter")).1 = m /\
  (exists ms captured, (Update m (KeyMsg "enter")).2 = Some (Tick ms captured "")) /\
  projects m = ps /\
  selected m = mark_all ps ∅ /\
  forall order, iteration_order (selected m) order ->
    selected_ids order ≡ₚ seqZ 0 (len ps).
Proof.
  intros Hne m.
  assert (Hm : m = with_selected (mark_all ps ∅)
                     (with_cursor 0 (with_mode modeSelectProjects
                        (with_action 0 (initialModel ps))))) by reflexivity.
  assert (Hlen : (0 < len ps)%Z).
  { unfold len. destruct ps; [contradiction|simpl; lia]. }
  assert (Hup : Update m (KeyMsg "enter") = (m, Some (Tick 100 m ""))).
  { rewrite Hm. unfold Update. simpl. unfold updateProjectSelect. simpl.
    destruct (decide (maplen (mark_all ps ∅) = 0%Z)) as [Hz|_].
    - rewrite mark_all_size in Hz. lia.
    - reflexivity. }
  split; [now rewrite Hup|]. split; [rewrite Hup; eauto|].
  split; [rewrite Hm; reflexivity|]. split; [rewrite Hm; reflexivity|].
  intros order Hord. apply NoDup_Permutation.
  - exact (iteration_order_NoDup _ _ Hord).
  - apply NoDup_seqZ.
  - intros id. rewrite elem_of_selected_ids, (iteration_order_selected _ _ _ Hord).
    rewrite Hm. simpl. rewrite mark_all_lookup, elem_of_seqZ.
    destruct (decide (0 <= id < len ps)%Z); split; intros H;
      try lia; try discriminate; reflexivity.
Qed.

(** The statement for [repo_a] and [repo_b]. *)
Lemma enter_enter_starts_batch_with_all_selected_witness :
  let m := press (initialModel [repo_a; repo_b]) ["enter"] in
  (Update m (KeyMsg "enter")).1 = m /\
  (exists ms captured, (Update m (KeyMsg "enter")).2 = Some (Tick ms captured "")) /\
  projects m = [repo_a; repo_b] /\
  selected m = mark_all [repo_a; repo_b] ∅ /\
  forall order, iteration_order (selected m) order ->
    selected_ids order ≡ₚ seqZ 0 (len [repo_a; repo_b]).
Proof.
  apply (enter_enter_starts_batch_with_all_selected [repo_a; repo_b]). discriminate.
Defined.

(** ** Discovery and start-up: further properties *)

Lemma name_le_lt (a b : project) : name_le a b -> name a <> name b -> name_lt a b.
Proof.
  unfold name_le, name_lt, String.leb, String.ltb.
  destruct (String.compare (name a) (name b)) eqn:Hc; intros Hle Hne;
    try reflexivity; try discriminate.
  apply String.compare_eq_iff in Hc. contradiction.
Qed.

Lemma sorted_distinct_strict (l : list project) :
  StronglySorted name_le l -> NoDup (name <$> l) -> StronglySorted name_lt l.
Proof.
  induction l as [|a l IH]; intros Hs Hnd; [constructor|].
  apply StronglySorted_inv in Hs as [Hs Ha].
  rewrite fmap_cons in Hnd. apply NoDup_cons in Hnd as [Hnotin Hnd].
  constructor; [now apply IH|].
  rewrite Forall_forall in Ha. apply Forall_forall. intros b Hb.
  apply name_le_lt; [now apply Ha|].
  intros Heq. apply Hnotin. rewrite Heq. now apply list_elem_of_fmap_2.
Qed.

Section LocatorMore.
Variable Dir : string -> string.
Variable Join : list string -> string.

Lemma findProjects_names (fs : FS) :
  name <$> findProjects Dir Join fs
  ≡ₚ Name <$> filter (fun d => is_repository Join fs (parentDir_of Dir fs) d = true)
                (ReadDir fs (parentDir_of Dir fs)).1.
Proof.
  rewrite findProjects_collected, sort_Slice_perm, <- list_fmap_compose.
  reflexivity.
Qed.

(** X20: when the entries of the parent directory have distinct names,
    as the entries of a directory have, the projects found have distinct
    names and are in strictly ascending order of name. *)
Theorem findProjects_strictly_ascending (fs : FS) :
  NoDup (Name <$> (ReadDir fs (parentDir_of Dir fs)).1) ->
  NoDup (name <$> findProjects Dir Join fs) /\
  StronglySorted name_lt (findProjects Dir Join fs).
Proof.
  intros Hnd.
  assert (Hnames : NoDup (name <$> findProjects Dir Join fs)).
  { rewrite findProjects_names.
    assert (Hsub : Name <$> filter
                     (fun d => is_repository Join fs (parentDir_of Dir fs) d = true)
                     (ReadDir fs (parentDir_of Dir fs)).1
                   `sublist_of` Name <$> (ReadDir fs (parentDir_of Dir fs)).1).
    { apply fmap_sublist. apply sublist_filter. }
    eapply sublist_NoDup; eassumption. }
  split; [exact Hnames|].
  apply sorted_distinct_strict; [|exact Hnames].
  rewrite findProjects_collected. apply sort_Slice_sorted.
Qed.

(** X21: [main] exits with status 1 and the line [No Git repositories
    found in parent directory] exactly when no entry of the parent
    directory qualifies as a repository; otherwise it runs the program
    on the initial model of the projects found: a non-empty project
    list, an empty selection, the action screen, cursor and action 0. *)
Theorem main_exits_iff_nothing_found (fs : FS) :
  let parent := parentDir_of Dir fs in
  (main Dir Join fs = ExitWith 1 "No Git repositories found in parent directory"
   <-> forall d, d ∈ (ReadDir fs parent).1 -> is_repository Join fs parent d = false) /\
  (main Dir Join fs = ExitWith 1 "No Git repositories found in parent directory"
   \/ main Dir Join fs = RunProgram (initialModel (findProjects Dir Join fs))) /\
  (forall m, main Dir Join fs = RunProgram m ->
     projects m = findProjects Dir Join fs /\ projects m <> [] /\
     selected m = ∅ /\ cur_mode m = modeSelectAction /\
     cursor m = 0%Z /\ action m = 0%Z).
Proof.
  intros parent.
  assert (Hlen : length (findProjects Dir Join fs)
                 = length (filter (fun d => is_repository Join fs parent d = true)
                             (ReadDir fs parent).1)).
  { rewrite findProjects_collected, (sort_Slice_perm _), length_fmap. reflexivity. }
  unfold main. unfold len.
  destruct (decide (Z.of_nat (length (findProjects Dir Join fs)) = 0%Z)) as [Hz|Hnz].
  - split; [|split; [now left|discriminate]].
    split; [|reflexivity]. intros _ d Hd.
    destruct (is_repository Join fs parent d) eqn:Hq; [|reflexivity].
    exfalso.
    assert (Hin : d ∈ filter (fun d => is_repository Join fs parent d = true)
                    (ReadDir fs parent).1) by (apply list_elem_of_filter; auto).
    destruct (filter (fun d => is_repository Join fs parent d = true)
                (ReadDir fs parent).1); [now apply elem_of_nil in Hin|].
    simpl in Hlen. lia.
  - split; [|split; [now right|]].
    + split; [discriminate|]. intros Hnone. exfalso. apply Hnz.
      rewrite Hlen.
      assert (Hf : filter (fun d => is_repository Join fs parent d = true)
                     (ReadDir fs parent).1 = []).
      { apply elem_of_nil_inv. intros d Hd.
        apply list_elem_of_filter in Hd as [Hq Hin].
        rewrite (Hnone d Hin) in Hq. discriminate. }
      rewrite Hf. reflexivity.
    + intros m Hm. injection Hm as <-. simpl.
      repeat split. intros Hnil. apply Hnz. now rewrite Hnil.
Qed.

(** X22: the result of [findProjects] does not depend on the order in
    which the parent directory lists its entries. *)
Theorem findProjects_listing_order (fs : FS) (entries : list DirEntry) :
  entries ≡ₚ (ReadDir fs (parentDir_of Dir fs)).1 ->
  findProjects Dir Join (relisted fs entries) = findProjects Dir Join fs.
Proof.
  intros Hp. apply findProjects_any_sort.
  - rewrite findProjects_collected.
    unfold relisted, parentDir_of. simpl. unfold is_repository. simpl.
    rewrite sort_Slice_perm. fold (parentDir_of Dir fs).
    apply fmap_Permutation.
    change (filter (fun d => is_repository Join fs (parentDir_of Dir fs) d = true) entries
            ≡ₚ filter (fun d => is_repository Join fs (parentDir_of Dir fs) d = true)
                 (ReadDir fs (parentDir_of Dir fs)).1).
    now rewrite Hp.
  - rewrite findProjects_collected. apply sort_Slice_sorted.
Qed.

End LocatorMore.

(** The statement at the mixed directory. *)
Lemma findProjects_strictly_ascending_witness :
  NoDup (name <$> findProjects slash_dir slash_join fs_mixed) /\
  StronglySorted name_lt (findProjects slash_dir slash_join fs_mixed).
Proof.
  apply (findProjects_strictly_ascending slash_dir slash_join fs_mixed).
  apply (bool_decide_unpack _). vm_compute. exact I.
Defined.

(** The statement at the mixed directory listed in another order. *)
Lemma findProjects_listing_order_witness :
  findProjects slash_dir slash_join
    (relisted fs_mixed
       [ {| Name := "alpha"; IsDir := true |};
         {| Name := "beta"; IsDir := true |};
         {| Name := "gamma"; IsDir := true |};
         {| Name := "README"; IsDir := false |};
         {| Name := "zeta"; IsDir := true |} ])
  = findProjects slash_dir slash_join fs_mixed.
Proof.
  apply (findProjects_listing_order slash_dir slash_join fs_mixed).
  assert (Hl : (ReadDir fs_mixed (parentDir_of slash_dir fs_mixed)).1
               = [ {| Name := "zeta"; IsDir := true |};
                   {| Name := "README"; IsDir := false |};
                   {| Name := "beta"; IsDir := true |};
                   {| Name := "alpha"; IsDir := true |};
                   {| Name := "gamma"; IsDir := true |} ])
    by (vm_compute; reflexivity).
  rewrite Hl.
  apply (bool_decide_unpack _). vm_compute. exact I.
Defined.

(** ** Toggle-all and the keys of the selection map *)

Lemma maplen_full_iff (m : model) :
  in_range m ->
  maplen (selected m) = len (projects m) <->
  forall i, (0 <= i < len (projects m))%Z -> is_Some (selected m !! i).
Proof.
  intros [Hk _].
  set (full := mark_all (projects m) ∅).
  assert (Hfull : forall i, i ∈ dom full <-> (0 <= i < len (projects m))%Z).
  { intros i. rewrite elem_of_dom. unfold full. rewrite mark_all_lookup.
    destruct (decide (0 <= i < len (projects m))%Z) as [Hr|Hr]; split; intros H.
    - exact Hr.
    - eauto.
    - destruct H; discriminate.
    - contradiction. }
  assert (Hsub : dom (selected m) ⊆ dom full).
  { intros i Hi. apply Hfull, Hk. now apply elem_of_dom. }
  assert (Hsize : size (dom full) = size full) by apply size_dom.
  assert (Hsize' : size (dom (selected m)) = size (selected m)) by apply size_dom.
  pose proof (mark_all_size (projects m)) as Hms. fold full in Hms.
  unfold maplen in *. split.
  - intros Heq i Hi.
    assert (Heqd : dom (selected m) = dom full).
    { apply set_subseteq_size_eq; [exact Hsub|]. lia. }
    apply elem_of_dom. rewrite Heqd. now apply Hfull.
  - intros Hall.
    assert (Heqd : dom (selected m) = dom full).
    { apply set_eq. intros i. split; [apply Hsub|].
      intros Hi. apply elem_of_dom, Hall. now apply Hfull. }
    rewrite <- Hsize', Heqd, Hsize. exact Hms.
Qed.

(** X23: on the selection screen of a model whose selection keys are
    project indices, toggle-all empties the selection exactly when every
    project index has an entry in the map, whether that entry reads
    [true] or [false]; in every other case it makes every project index
    read [true].  The result is never a partial selection. *)
Theorem toggle_all_by_entries (m : model) :
  cur_mode m = modeSelectProjects -> in_range m ->
  let s' := selected (Update m (KeyMsg "a")).1 in
  ((forall i, (0 <= i < len (projects m))%Z -> is_Some (selected m !! i)) ->
   s' = ∅) /\
  (~ (forall i, (0 <= i < len (projects m))%Z -> is_Some (selected m !! i)) ->
   s' = mark_all (projects m) ∅ /\
   forall i, (0 <= i < len (projects m))%Z -> sel_get s' i = true).
Proof.
  intros Hmode Hinv s'. subst s'. unfold Update. rewrite Hmode.
  unfold updateProjectSelect. simpl.
  pose proof (maplen_full_iff m Hinv) as Hiff.
  destruct (bool_decide (maplen (selected m) = len (projects m))) eqn:Hb; simpl.
  - apply bool_decide_eq_true_1 in Hb. split; [reflexivity|].
    intros Hnot. exfalso. apply Hnot. now apply Hiff.
  - apply bool_decide_eq_false_1 in Hb. split.
    + intros Hall. exfalso. apply Hb. now apply Hiff.
    + intros _. split; [reflexivity|]. intros i Hi.
      unfold sel_get. rewrite mark_all_lookup.
      destruct (decide (0 <= i < len (projects m))%Z); [reflexivity|contradiction].
Qed.

(** The statement for [repo_a] and [repo_b] with the first toggled off. *)
Lemma toggle_all_by_entries_witness :
  let s' := selected (Update first_unticked (KeyMsg "a")).1 in
  ((forall i, (0 <= i < len (projects first_unticked))%Z ->
      is_Some (selected first_unticked !! i)) -> s' = ∅) /\
  (~ (forall i, (0 <= i < len (projects first_unticked))%Z ->
        is_Some (selected first_unticked !! i)) ->
   s' = mark_all (projects first_unticked) ∅ /\
   forall i, (0 <= i < len (projects first_unticked))%Z -> sel_get s' i = true).
Proof.
  apply (toggle_all_by_entries first_unticked).
  - reflexivity.
  - apply (press_in_range [repo_a; repo_b] ["enter"; " "]). discriminate.
Defined.

(** X24: on the action screen and on the selection screen the keys [k]
    and [j] do what the up and down arrows do; on the branch-name screen
    they are typed into the name, while the arrows do nothing there. *)
Theorem vim_keys_and_arrows (m : model) :
  (cur_mode m <> modeEnterBranch ->
   Update m (KeyMsg "k") = Update m (KeyMsg "up") /\
   Update m (KeyMsg "j") = Update m (KeyMsg "down")) /\
  (cur_mode m = modeEnterBranch ->
   Update m (KeyMsg "k") = (with_branchName (branchName m +:+ "k") m, None) /\
   Update m (KeyMsg "j") = (with_branchName (branchName m +:+ "j") m, None) /\
   Update m (KeyMsg "up") = (m, None) /\
   Update m (KeyMsg "down") = (m, None)).
Proof.
  split; intros Hm; unfold Update.
  - destruct (cur_mode m); try contradiction; split; reflexivity.
  - rewrite Hm. repeat split; reflexivity.
Qed.
